(** * Magical Vibe Carpet: flight, terrain and spell model

    A shallow embedding of the world-interaction core of the game
    (WorldSystem.js, PlayerSystem.js, player/PlayerSpells.js and
    player/PlayerPhysics.js) together with the properties its specification
    states about it.

    JavaScript numbers are idealised as exact rationals plus an explicit
    [NaN]; rounding and the infinities are outside the model.  Objects that
    the source mutates in place live in one [Game] record that every method
    threads through a small state-and-exception monad. *)

From Stdlib Require Import QArith Qround Qabs ZArith List String Bool Lia Lqa.
Import ListNotations.

(** ** JavaScript numbers *)

Inductive num : Type :=
| Fin (q : Q)
| NaN.

Coercion Fin : Q >-> num.

Declare Scope js_scope.
Delimit Scope js_scope with js.
Bind Scope js_scope with num.

Module Num.

Definition lift1 (f : Q -> Q) (a : num) : num :=
  match a with
  | Fin u => Fin (f u)
  | NaN => NaN
  end.

Definition lift2 (f : Q -> Q -> Q) (a b : num) : num :=
  match a, b with
  | Fin u, Fin v => Fin (f u v)
  | _, _ => NaN
  end.

Definition add : num -> num -> num := lift2 Qplus.
Definition sub : num -> num -> num := lift2 Qminus.
Definition mul : num -> num -> num := lift2 Qmult.
Definition neg : num -> num := lift1 Qopp.

(** Division is only ever applied to non-zero constants in the modelled
    code; a zero divisor (an infinity or NaN in JavaScript) yields [NaN]. *)
Definition div (a b : num) : num :=
  match a, b with
  | Fin u, Fin v => if Qeq_bool v 0 then NaN else Fin (u / v)
  | _, _ => NaN
  end.

(** Comparisons: every comparison with NaN is false. *)
Definition Qltb (u v : Q) : bool := negb (Qle_bool v u).

Definition ltb (a b : num) : bool :=
  match a, b with
  | Fin u, Fin v => Qltb u v
  | _, _ => false
  end.

Definition leb (a b : num) : bool :=
  match a, b with
  | Fin u, Fin v => Qle_bool u v
  | _, _ => false
  end.

Definition gtb (a b : num) : bool := ltb b a.
Definition geb (a b : num) : bool := leb b a.

(** [Math.floor], [Math.ceil], [Math.min], [Math.max], [Math.abs]. *)
Definition floor : num -> num := lift1 (fun u => inject_Z (Qfloor u)).
Definition ceil : num -> num := lift1 (fun u => inject_Z (Qceiling u)).
Definition min : num -> num -> num :=
  lift2 (fun u v => if Qle_bool u v then u else v).
Definition max : num -> num -> num :=
  lift2 (fun u v => if Qle_bool u v then v else u).
Definition abs : num -> num := lift1 Qabs.

Definition ofNat (n : nat) : num := Fin (inject_Z (Z.of_nat n)).

Definition isFinite (a : num) : bool :=
  match a with
  | Fin _ => true
  | NaN => false
  end.

(** Reading a possibly [undefined] value in an arithmetic position. *)
Definition toNumber (o : option num) : num :=
  match o with
  | Some a => a
  | None => NaN
  end.



End Num.

Infix "+" := Num.add : js_scope.
Infix "-" := Num.sub : js_scope.
Infix "*" := Num.mul : js_scope.
Infix "/" := Num.div : js_scope.
Notation "- a" := (Num.neg a) : js_scope.
Infix "<?" := Num.ltb (at level 70) : js_scope.
Infix "<=?" := Num.leb (at level 70) : js_scope.
Infix ">?" := Num.gtb (at level 70) : js_scope.
Infix ">=?" := Num.geb (at level 70) : js_scope.

(** ** Arrays

    [a[i]] for a JavaScript number [i]: the element when [i] is an integer
    within [0, a.length), and [undefined] ([None]) for every other key. *)

Definition arrayGet {A : Type} (a : list A) (i : num) : option A :=
  match i with
  | Fin u =>
      let k := Qfloor u in
      if Qeq_bool u (inject_Z k) && (0 <=? k)%Z
      then nth_error a (Z.to_nat k)
      else None
  | NaN => None
  end.

(** [a.splice(i, 1)] for a natural index. *)
Fixpoint splice1 {A : Type} (a : list A) (i : nat) : list A :=
  match a, i with
  | [], _ => []
  | _ :: t, O => t
  | h :: t, S j => h :: splice1 t j
  end.

(** [a[i] = v] for an index inside the array. *)
Fixpoint arraySet {A : Type} (a : list A) (i : nat) (v : A) : list A :=
  match a, i with
  | [], _ => []
  | _ :: t, O => v :: t
  | h :: t, S j => h :: arraySet t j v
  end.

(** ** THREE.Vector3 and THREE.Euler *)

Module Vector3.

Record t : Type := mk { x : num; y : num; z : num }.

Definition add (a b : t) : t :=
  mk (x a + x b) (y a + y b) (z a + z b).

Definition multiplyScalar (a : t) (s : num) : t :=
  mk (x a * s) (y a * s) (z a * s).

(** [this.x += (v.x - this.x) * alpha], componentwise. *)
Definition lerp (a v : t) (alpha : num) : t :=
  mk (x a + (x v - x a) * alpha)
     (y a + (y v - y a) * alpha)
     (z a + (z v - z a) * alpha).

Definition distanceToSquared (a b : t) : num :=
  let dx := (x a - x b)%js in
  let dy := (y a - y b)%js in
  let dz := (z a - z b)%js in
  (dx * dx + dy * dy + dz * dz)%js.

(** [a.distanceTo(b) < r].  The distance is the non-negative square root
    of [distanceToSquared], so the test holds exactly when [r] is positive
    and the squared distance is below [r * r]. *)
Definition distanceToLt (a b : t) (r : num) : bool :=
  ((0%Q <? r) && (distanceToSquared a b <? r * r))%js.

Definition set_y (a : t) (v : num) : t := mk (x a) v (z a).

End Vector3.

Module Euler.
Record t : Type := mk { x : num; y : num; z : num }.
Definition set_y (a : t) (v : num) : t := mk (x a) v (z a).
End Euler.

(** [THREE.MathUtils.lerp(x, y, t) = (1 - t) * x + t * y]. *)
Definition MathUtils_lerp (a b t : num) : num :=
  ((1%Q - t) * a + t * b)%js.

(** [THREE.MathUtils.clamp(value, min, max)
     = Math.max(min, Math.min(max, value))]. *)
Definition MathUtils_clamp (value lo hi : num) : num :=
  Num.max lo (Num.min hi value).

(** ** Game objects *)

(** A mana node: the mesh position, [visible], and its [userData]. *)
Record ManaNode : Type := mkManaNode {
  node_position : Vector3.t;
  node_visible : bool;
  node_value : num;
  node_collected : bool
}.

(** An entry of the array returned by [checkManaCollection]. *)
Record Collected : Type := mkCollected {
  collected_position : Vector3.t;
  collected_value : num
}.

(** A row of [PlayerSpells.spellTypes]. *)
Record SpellType : Type := mkSpellType {
  st_name : string;
  st_color : num;
  st_damage : num;
  st_speed : num;
  st_cooldown : num
}.

(** A projectile: the mesh position and colour, and its [userData]. *)
Record Spell : Type := mkSpell {
  spell_position : Vector3.t;
  spell_color : num;
  spell_type : string;
  spell_damage : num;
  spell_velocity : Vector3.t;
  spell_life : num;
  spell_owner : string
}.

Record Shield : Type := mkShield { shield_duration : num }.

(** A player object.  Local and network players share the fields below;
    the fields that [createNetworkPlayer] leaves out ([altitudeVelocity],
    [currentSpell], [shield]) are never read on a network player. *)
Record Player : Type := mkPlayer {
  id : string;
  isLocal : bool;
  position : Vector3.t;
  rotation : Euler.t;
  velocity : Vector3.t;
  mana : num;
  health : num;
  maxHealth : num;
  altitudeVelocity : num;
  currentSpell : num;
  shield : option Shield
}.

Definition set_position (p : Player) (v : Vector3.t) : Player :=
  mkPlayer (id p) (isLocal p) v (rotation p) (velocity p) (mana p) (health p)
           (maxHealth p) (altitudeVelocity p) (currentSpell p) (shield p).
Definition set_rotation (p : Player) (v : Euler.t) : Player :=
  mkPlayer (id p) (isLocal p) (position p) v (velocity p) (mana p) (health p)
           (maxHealth p) (altitudeVelocity p) (currentSpell p) (shield p).
Definition set_velocity (p : Player) (v : Vector3.t) : Player :=
  mkPlayer (id p) (isLocal p) (position p) (rotation p) v (mana p) (health p)
           (maxHealth p) (altitudeVelocity p) (currentSpell p) (shield p).
Definition set_mana (p : Player) (v : num) : Player :=
  mkPlayer (id p) (isLocal p) (position p) (rotation p) (velocity p) v (health p)
           (maxHealth p) (altitudeVelocity p) (currentSpell p) (shield p).
Definition set_health (p : Player) (v : num) : Player :=
  mkPlayer (id p) (isLocal p) (position p) (rotation p) (velocity p) (mana p) v
           (maxHealth p) (altitudeVelocity p) (currentSpell p) (shield p).
Definition set_altitudeVelocity (p : Player) (v : num) : Player :=
  mkPlayer (id p) (isLocal p) (position p) (rotation p) (velocity p) (mana p)
           (health p) (maxHealth p) v (currentSpell p) (shield p).
Definition set_currentSpell (p : Player) (v : num) : Player :=
  mkPlayer (id p) (isLocal p) (position p) (rotation p) (velocity p) (mana p)
           (health p) (maxHealth p) (altitudeVelocity p) v (shield p).
Definition set_shield (p : Player) (v : option Shield) : Player :=
  mkPlayer (id p) (isLocal p) (position p) (rotation p) (velocity p) (mana p)
           (health p) (maxHealth p) (altitudeVelocity p) (currentSpell p) v.

(** The closure stored in [worldTransitionComplete]; the source creates
    only one. *)
Inductive Callback : Type := RegenerateWorld.

(** Calls on the collaborators outside the core (scene graph, UI, particle
    effects), recorded in the order they happen. *)
Inductive Event : Type :=
| SceneAddTerrain
| SceneAddSpell (s : Spell)
| SceneRemoveSpell (s : Spell)
| MuzzleFlash (p : Vector3.t) (color : num)
| ImpactEffect (p : Vector3.t) (color : num)
| ShieldAdded
| ShieldRemoved
| UpdateHealthDisplay (h mh : num)
| UISelectSpell (index : num).

(** ** The object graph

    [players] is the [Map] of PlayerSystem in insertion order; [localPlayer]
    aliases one of its values and is kept as that value's key. *)
Record Game : Type := mkGame {
  (* WorldSystem *)
  heightMap : list (list num);
  seed : num;
  manaNodes : list ManaNode;
  (* PlayerSystem *)
  players : list (string * Player);
  localPlayer : option string;
  isTransitioning : bool;
  transitionAlpha : num;
  worldTransitionComplete : option Callback;
  (* PlayerSpells *)
  spellCooldown : num;
  activeSpells : list Spell;
  (* environment *)
  randomCalls : nat;
  trace : list Event
}.

Definition set_heightMap (g : Game) (v : list (list num)) : Game :=
  mkGame v (seed g) (manaNodes g) (players g) (localPlayer g)
         (isTransitioning g) (transitionAlpha g) (worldTransitionComplete g)
         (spellCooldown g) (activeSpells g) (randomCalls g) (trace g).
Definition set_seed (g : Game) (v : num) : Game :=
  mkGame (heightMap g) v (manaNodes g) (players g) (localPlayer g)
         (isTransitioning g) (transitionAlpha g) (worldTransitionComplete g)
         (spellCooldown g) (activeSpells g) (randomCalls g) (trace g).
Definition set_manaNodes (g : Game) (v : list ManaNode) : Game :=
  mkGame (heightMap g) (seed g) v (players g) (localPlayer g)
         (isTransitioning g) (transitionAlpha g) (worldTransitionComplete g)
         (spellCooldown g) (activeSpells g) (randomCalls g) (trace g).
Definition set_players (g : Game) (v : list (string * Player)) : Game :=
  mkGame (heightMap g) (seed g) (manaNodes g) v (localPlayer g)
         (isTransitioning g) (transitionAlpha g) (worldTransitionComplete g)
         (spellCooldown g) (activeSpells g) (randomCalls g) (trace g).
Definition set_isTransitioning (g : Game) (v : bool) : Game :=
  mkGame (heightMap g) (seed g) (manaNodes g) (players g) (localPlayer g)
         v (transitionAlpha g) (worldTransitionComplete g)
         (spellCooldown g) (activeSpells g) (randomCalls g) (trace g).
Definition set_transitionAlpha (g : Game) (v : num) : Game :=
  mkGame (heightMap g) (seed g) (manaNodes g) (players g) (localPlayer g)
         (isTransitioning g) v (worldTransitionComplete g)
         (spellCooldown g) (activeSpells g) (randomCalls g) (trace g).
Definition set_worldTransitionComplete (g : Game) (v : option Callback) : Game :=
  mkGame (heightMap g) (seed g) (manaNodes g) (players g) (localPlayer g)
         (isTransitioning g) (transitionAlpha g) v
         (spellCooldown g) (activeSpells g) (randomCalls g) (trace g).
Definition set_spellCooldown (g : Game) (v : num) : Game :=
  mkGame (heightMap g) (seed g) (manaNodes g) (players g) (localPlayer g)
         (isTransitioning g) (transitionAlpha g) (worldTransitionComplete g)
         v (activeSpells g) (randomCalls g) (trace g).
Definition set_activeSpells (g : Game) (v : list Spell) : Game :=
  mkGame (heightMap g) (seed g) (manaNodes g) (players g) (localPlayer g)
         (isTransitioning g) (transitionAlpha g) (worldTransitionComplete g)
         (spellCooldown g) v (randomCalls g) (trace g).
Definition set_randomCalls (g : Game) (v : nat) : Game :=
  mkGame (heightMap g) (seed g) (manaNodes g) (players g) (localPlayer g)
         (isTransitioning g) (transitionAlpha g) (worldTransitionComplete g)
         (spellCooldown g) (activeSpells g) v (trace g).
Definition set_trace (g : Game) (v : list Event) : Game :=
  mkGame (heightMap g) (seed g) (manaNodes g) (players g) (localPlayer g)
         (isTransitioning g) (transitionAlpha g) (worldTransitionComplete g)
         (spellCooldown g) (activeSpells g) (randomCalls g) v.

(** [players.get(key)] and the in-place update of the object stored there. *)
Fixpoint mapGet (m : list (string * Player)) (key : string) : option Player :=
  match m with
  | [] => None
  | (k, p) :: rest => if String.eqb k key then Some p else mapGet rest key
  end.

Fixpoint mapUpdate (m : list (string * Player)) (key : string)
         (f : Player -> Player) : list (string * Player) :=
  match m with
  | [] => []
  | (k, p) :: rest =>
      if String.eqb k key then (k, f p) :: rest
      else (k, p) :: mapUpdate rest key f
  end.

(** ** State and exceptions

    A method either returns a value or throws; in both cases the mutations
    made so far stay in the object graph. *)

Inductive Error : Type := TypeError.

Inductive Outcome (A : Type) : Type :=
| Ok (a : A) (g : Game)
| Throw (e : Error) (g : Game).

Arguments Ok {A} a g.
Arguments Throw {A} e g.

Definition M (A : Type) : Type := Game -> Outcome A.

Definition ret {A : Type} (a : A) : M A := fun g => Ok a g.

Definition bind {A B : Type} (c : M A) (k : A -> M B) : M B :=
  fun g =>
    match c g with
    | Ok a g' => k a g'
    | Throw e g' => Throw e g'
    end.

Definition throw {A : Type} (e : Error) : M A := fun g => Throw e g.
Definition gets {A : Type} (f : Game -> A) : M A := fun g => Ok (f g) g.
Definition modify (f : Game -> Game) : M unit := fun g => Ok tt (f g).

Notation "x <- c ;; k" := (bind c (fun x => k))
  (at level 61, c at next level, right associativity).
Notation "c ;; k" := (bind c (fun _ => k))
  (at level 61, right associativity).

(** Property access on a possibly [undefined] receiver. *)
Definition deref {A : Type} (o : option A) : M A :=
  match o with
  | Some a => ret a
  | None => throw TypeError
  end.

Definition emit (e : Event) : M unit :=
  modify (fun g => set_trace g (trace g ++ [e])).

Definition finalState {A : Type} (o : Outcome A) : Game :=
  match o with
  | Ok _ g => g
  | Throw _ g => g
  end.

Definition threw {A : Type} (o : Outcome A) : bool :=
  match o with
  | Ok _ _ => false
  | Throw _ _ => true
  end.

(** ** WorldSystem *)

Module WorldSystem.

Definition worldSize : num := Fin 1000.
Definition heightScale : num := Fin 60.

(** [getTerrainHeight(x, z)]: bilinear interpolation in the cached
    height map.  [heightMap[k]] of a missing row is [undefined], and
    indexing it throws; a missing cell is [undefined] and becomes NaN in
    the interpolation. *)
Definition getTerrainHeight (x z : num) : M num :=
  hm <- gets heightMap ;;
  let halfSize := (worldSize / Fin 2)%js in
  let rows := Num.ofNat (List.length hm) in
  let nx := (((x + halfSize) / worldSize) * (rows - Fin 1))%js in
  row0 <- deref (arrayGet hm (Fin 0)) ;;
  let cols := Num.ofNat (List.length row0) in
  let nz := (((z + halfSize) / worldSize) * (cols - Fin 1))%js in
  let x1 := Num.floor nx in
  let x2 := Num.min (Num.ceil nx) (rows - Fin 1)%js in
  let z1 := Num.floor nz in
  let z2 := Num.min (Num.ceil nz) (cols - Fin 1)%js in
  r1 <- deref (arrayGet hm x1) ;;
  let h11 := Num.toNumber (arrayGet r1 z1) in
  r2 <- deref (arrayGet hm x2) ;;
  let h21 := Num.toNumber (arrayGet r2 z1) in
  let h12 := Num.toNumber (arrayGet r1 z2) in
  let h22 := Num.toNumber (arrayGet r2 z2) in
  let fx := (nx - x1)%js in
  let fz := (nz - z1)%js in
  let h1 := (h11 * (Fin 1 - fx) + h21 * fx)%js in
  let h2 := (h12 * (Fin 1 - fx) + h22 * fx)%js in
  ret (h1 * (Fin 1 - fz) + h2 * fz)%js.

(** [checkManaCollection(position, radius)]: the [forEach] over the node
    array, returning the nodes after the pass and the entries pushed. *)
Definition inReach (position : Vector3.t) (radius : num) (node : ManaNode)
  : bool :=
  Vector3.distanceToLt position (node_position node) (radius + Fin 2)%js.

Definition collect (node : ManaNode) : ManaNode :=
  mkManaNode (node_position node) false (node_value node) true.

Fixpoint collectNodes (position : Vector3.t) (radius : num)
         (nodes : list ManaNode) : list ManaNode * list Collected :=
  match nodes with
  | [] => ([], [])
  | node :: rest =>
      let (rest', found) := collectNodes position radius rest in
      if negb (node_collected node) then
        if inReach position radius node then
          (collect node :: rest',
           mkCollected (node_position node) (node_value node) :: found)
        else (node :: rest', found)
      else (node :: rest', found)
  end.

Definition checkManaCollection (position : Vector3.t) (radius : num)
  : M (list Collected) :=
  nodes <- gets manaNodes ;;
  let (nodes', collectedNodes) := collectNodes position radius nodes in
  modify (fun g => set_manaNodes g nodes') ;;
  ret collectedNodes.

Section Generation.

(** [SimplexNoise.noise] of the instance created in the constructor and
    the successive results of [Math.random()]. *)
Variable noise : num -> num -> num.
Variable random : nat -> Q.

Definition Math_random : M num :=
  n <- gets randomCalls ;;
  modify (fun g => set_randomCalls g (S n)) ;;
  ret (Fin (random n)).

Definition resolution : nat := 100.

(** The value stored at [heightMap[i][j]] by [createTerrainCollision]. *)
Definition cellHeight (sd : num) (i j : nat) : num :=
  let res := Num.ofNat resolution in
  let x := ((Num.ofNat i / res) * worldSize - worldSize / Fin 2)%js in
  let z := ((Num.ofNat j / res) * worldSize - worldSize / Fin 2)%js in
  let nx := (x / worldSize)%js in
  let nz := (z / worldSize)%js in
  let noise1 :=
    (noise (nx * Fin 1.5 + sd) (nz * Fin 1.5 + sd) * Fin 0.5)%js in
  let noise2 :=
    (noise (nx * Fin 3 + sd * Fin 2) (nz * Fin 3 + sd * Fin 2)
     * Fin 0.25)%js in
  let noise3 :=
    (noise (nx * Fin 6 + sd * Fin 3) (nz * Fin 6 + sd * Fin 3)
     * Fin 0.125)%js in
  ((noise1 + noise2 + noise3) * heightScale)%js.

Definition createTerrainCollision : M unit :=
  sd <- gets seed ;;
  let idx := seq 0 (S resolution) in
  modify (fun g =>
    set_heightMap g (map (fun i => map (cellHeight sd i) idx) idx)).

(** [createTerrain]: the mesh is rendering only; what reaches the core
    is the mesh added to the scene and the rebuilt height map. *)
Definition createTerrain : M unit :=
  emit SceneAddTerrain ;;
  createTerrainCollision.

Definition nodeCount : nat := 20.

Fixpoint createManaNodesLoop (n : nat) : M unit :=
  match n with
  | O => ret tt
  | S k =>
      r1 <- Math_random ;;
      let x := ((r1 - Fin 0.5) * worldSize * Fin 0.8)%js in
      r2 <- Math_random ;;
      let z := ((r2 - Fin 0.5) * worldSize * Fin 0.8)%js in
      h <- getTerrainHeight x z ;;
      let y := (h + Fin 10)%js in
      r3 <- Math_random ;;
      let value := (Fin 10 + Num.floor (r3 * Fin 20))%js in
      modify (fun g =>
        set_manaNodes g
          (manaNodes g ++ [mkManaNode (Vector3.mk x y z) true value false])) ;;
      createManaNodesLoop k
  end.

Definition createManaNodes : M unit :=
  modify (fun g => set_manaNodes g []) ;;
  createManaNodesLoop nodeCount.

End Generation.

End WorldSystem.

(** ** Access to player objects *)

Definition getLocalPlayer : M (option Player) :=
  gets (fun g =>
    match localPlayer g with
    | Some key => mapGet (players g) key
    | None => None
    end).

(** The player object registered under [key]; the source holds it by
    reference, so a missing key has no counterpart there. *)
Definition getPlayer (key : string) : M Player :=
  p <- gets (fun g => mapGet (players g) key) ;;
  deref p.

Definition modifyPlayer (key : string) (f : Player -> Player) : M unit :=
  modify (fun g => set_players g (mapUpdate (players g) key f)).

(** [players.forEach(body)] for a body that mutates the visited player. *)
Fixpoint forEachPlayer (body : Player -> M Player)
         (ps : list (string * Player)) : M (list (string * Player)) :=
  match ps with
  | [] => ret []
  | (key, p) :: rest =>
      p' <- body p ;;
      rest' <- forEachPlayer body rest ;;
      ret ((key, p') :: rest')
  end.

Definition playersForEach (body : Player -> M Player) : M unit :=
  ps <- gets players ;;
  ps' <- forEachPlayer body ps ;;
  modify (fun g => set_players g ps').

(** ** PlayerSpells *)

Module PlayerSpells.

Definition spellTypes : list SpellType :=
  [ mkSpellType "Fireball" (Fin 0xff3300) (Fin 20) (Fin 100) (Fin 0.5);
    mkSpellType "Lightning" (Fin 0x33ccff) (Fin 15) (Fin 150) (Fin 0.3);
    mkSpellType "Shield" (Fin 0xffcc00) (Fin 0) (Fin 0) (Fin 2) ].

Definition selectSpell (index : num) : M unit :=
  player <- getLocalPlayer ;;
  match player with
  | None => ret tt
  | Some p =>
      if ((index >=? Fin 0) && (index <? Num.ofNat (List.length spellTypes)))%js
      then
        modifyPlayer (id p) (fun q => set_currentSpell q index) ;;
        emit (UISelectSpell index)
      else ret tt
  end.

Definition createShieldEffect : M unit :=
  player <- getLocalPlayer ;;
  match player with
  | None => ret tt
  | Some p =>
      emit ShieldAdded ;;
      modifyPlayer (id p) (fun q => set_shield q (Some (mkShield (Fin 3))))
  end.

Definition updateShield (delta : num) : M unit :=
  player <- getLocalPlayer ;;
  match player with
  | None => ret tt
  | Some p =>
      match shield p with
      | None => ret tt
      | Some sh =>
          let duration := (shield_duration sh - delta)%js in
          modifyPlayer (id p)
            (fun q => set_shield q (Some (mkShield duration))) ;;
          if (duration <=? Fin 0)%js then
            emit ShieldRemoved ;;
            modifyPlayer (id p) (fun q => set_shield q None)
          else ret tt
      end
  end.

Section Casting.

(** [Vector3.applyEuler] of the rendering library. *)
Variable applyEuler : Vector3.t -> Euler.t -> Vector3.t.

Definition castSpell : M unit :=
  player <- getLocalPlayer ;;
  cooldown <- gets spellCooldown ;;
  match player with
  | None => ret tt
  | Some p =>
      if (cooldown >? Fin 0)%js then ret tt
      else
        spellType <- deref (arrayGet spellTypes (currentSpell p)) ;;
        modify (fun g => set_spellCooldown g (st_cooldown spellType)) ;;
        if String.eqb (st_name spellType) "Shield" then
          createShieldEffect
        else
          let spellOffset :=
            applyEuler (Vector3.mk (Fin 0) (Fin 0) (Fin 2)) (rotation p) in
          let direction :=
            applyEuler (Vector3.mk (Fin 0) (Fin 0) (Fin 1)) (rotation p) in
          let spell :=
            mkSpell (Vector3.add (position p) spellOffset)
                    (st_color spellType)
                    (st_name spellType)
                    (st_damage spellType)
                    (Vector3.multiplyScalar direction (st_speed spellType))
                    (Fin 3)
                    (id p) in
          emit (SceneAddSpell spell) ;;
          modify (fun g => set_activeSpells g (activeSpells g ++ [spell])) ;;
          emit (MuzzleFlash (spell_position spell) (st_color spellType))
  end.

End Casting.

(** The body of [players.forEach] in [updateSpells], for the projectile
    [spell] that the enclosing loop is visiting at index [i]. *)
Definition hitPlayer (spell : Spell) (i : nat) (player : Player) : M Player :=
  if negb (String.eqb (id player) (spell_owner spell)) then
    if Vector3.distanceToLt (position player) (spell_position spell) (Fin 3)
    then
      let player' :=
        set_health player
          (Num.max (Fin 0) (health player - spell_damage spell)%js) in
      (if isLocal player'
       then emit (UpdateHealthDisplay (health player') (maxHealth player'))
       else ret tt) ;;
      emit (SceneRemoveSpell spell) ;;
      modify (fun g => set_activeSpells g (splice1 (activeSpells g) i)) ;;
      emit (ImpactEffect (spell_position spell) (spell_color spell)) ;;
      ret player'
    else ret player
  else ret player.

Definition advance (spell : Spell) (delta : num) : Spell :=
  mkSpell (Vector3.add (spell_position spell)
                       (Vector3.multiplyScalar (spell_velocity spell) delta))
          (spell_color spell) (spell_type spell) (spell_damage spell)
          (spell_velocity spell) (spell_life spell - delta)%js
          (spell_owner spell).

(** One iteration of the projectile loop, at index [i]. *)
Definition updateProjectile (delta : num) (i : nat) : M unit :=
  spells <- gets activeSpells ;;
  spell0 <- deref (nth_error spells i) ;;
  let spell := advance spell0 delta in
  modify (fun g => set_activeSpells g (arraySet (activeSpells g) i spell)) ;;
  terrainY <- WorldSystem.getTerrainHeight
                (Vector3.x (spell_position spell))
                (Vector3.z (spell_position spell)) ;;
  if ((Vector3.y (spell_position spell) <? terrainY)
      || (spell_life spell <=? Fin 0))%js
  then
    emit (SceneRemoveSpell spell) ;;
    modify (fun g => set_activeSpells g (splice1 (activeSpells g) i)) ;;
    if (Vector3.y (spell_position spell) <? terrainY)%js
    then emit (ImpactEffect (spell_position spell) (spell_color spell))
    else ret tt
  else
    playersForEach (hitPlayer spell i).

(** [for (let i = n - 1; i >= 0; i--)]. *)
Fixpoint updateProjectiles (delta : num) (n : nat) : M unit :=
  match n with
  | O => ret tt
  | S i => updateProjectile delta i ;; updateProjectiles delta i
  end.

Definition updateSpells (delta : num) : M unit :=
  cooldown <- gets spellCooldown ;;
  (if (cooldown >? Fin 0)%js
   then modify (fun g => set_spellCooldown g (cooldown - delta)%js)
   else ret tt) ;;
  updateShield delta ;;
  n <- gets (fun g => List.length (activeSpells g)) ;;
  updateProjectiles delta n.

End PlayerSpells.

(** ** PlayerPhysics *)

Module PlayerPhysics.

Definition minAltitude : num := Fin 5.
Definition maxAltitude : num := Fin 300.
Definition altitudeDamping : num := Fin 0.9.

Definition set_position_y (p : Player) (v : num) : Player :=
  set_position p (Vector3.set_y (position p) v).
Definition set_velocity_y (p : Player) (v : num) : Player :=
  set_velocity p (Vector3.set_y (velocity p) v).

(** [updateAltitude(player, delta)], for the player object stored under
    [key]. *)
Definition updateAltitude (key : string) (delta : num) : M unit :=
  modifyPlayer key (fun p =>
    set_position_y p
      (Vector3.y (position p) + altitudeVelocity p * delta)%js) ;;
  modifyPlayer key (fun p =>
    set_altitudeVelocity p (altitudeVelocity p * altitudeDamping)%js) ;;
  player <- getPlayer key ;;
  terrainHeight <- WorldSystem.getTerrainHeight
                     (Vector3.x (position player))
                     (Vector3.z (position player)) ;;
  let minHeightAboveTerrain :=
    Num.max minAltitude (terrainHeight + Fin 5)%js in
  (if (Vector3.y (position player) <? minHeightAboveTerrain)%js then
     modifyPlayer key (fun p => set_position_y p minHeightAboveTerrain) ;;
     modifyPlayer key (fun p =>
       if (Vector3.y (velocity p) <? Fin 0)%js
       then set_velocity_y p (Fin 0) else p) ;;
     modifyPlayer key (fun p =>
       if (altitudeVelocity p <? Fin (-10))%js
       then set_altitudeVelocity p (- altitudeVelocity p * Fin 0.3)%js
       else set_altitudeVelocity p (Fin 0))
   else ret tt) ;;
  player <- getPlayer key ;;
  if (Vector3.y (position player) >? maxAltitude)%js then
    modifyPlayer key (fun p => set_position_y p maxAltitude) ;;
    modifyPlayer key (fun p =>
      if (Vector3.y (velocity p) >? Fin 0)%js
      then set_velocity_y p (Fin 0) else p) ;;
    modifyPlayer key (fun p => set_altitudeVelocity p (Fin 0))
  else ret tt.

(** [applyAltitudeChange(player, force)], for the player object stored
    under [key]. *)
Definition applyAltitudeChange (key : string) (force : num) : M unit :=
  modifyPlayer key (fun p =>
    set_altitudeVelocity p (altitudeVelocity p + force)%js) ;;
  let maxAltitudeVelocity := Fin 60 in
  modifyPlayer key (fun p =>
    set_altitudeVelocity p
      (MathUtils_clamp (altitudeVelocity p)
                       (- maxAltitudeVelocity)%js maxAltitudeVelocity)).

End PlayerPhysics.

(** ** PlayerSystem *)

(** A [player_update] payload; a field that is [undefined] is [None]. *)
Record Snapshot : Type := mkSnapshot {
  data_id : string;
  data_x : option num;
  data_y : option num;
  data_z : option num;
  data_rotationY : option num;
  data_mana : option num;
  data_health : option num
}.

Module PlayerSystem.

Definition updateNetworkPlayer (data : Snapshot) : M unit :=
  player <- gets (fun g => mapGet (players g) (data_id data)) ;;
  match player with
  | None => ret tt
  | Some p =>
      if negb (isLocal p) then
        (match data_x data, data_y data, data_z data with
         | Some x, Some y, Some z =>
             let targetPos := Vector3.mk x y z in
             modifyPlayer (data_id data) (fun q =>
               set_position q (Vector3.lerp (position q) targetPos (Fin 0.3)))
         | _, _, _ => ret tt
         end) ;;
        (match data_rotationY data with
         | Some r =>
             modifyPlayer (data_id data) (fun q =>
               set_rotation q
                 (Euler.set_y (rotation q)
                    (MathUtils_lerp (Euler.y (rotation q)) r (Fin 0.3))))
         | None => ret tt
         end) ;;
        (match data_mana data with
         | Some m => modifyPlayer (data_id data) (fun q => set_mana q m)
         | None => ret tt
         end) ;;
        (match data_health data with
         | Some h => modifyPlayer (data_id data) (fun q => set_health q h)
         | None => ret tt
         end)
      else ret tt
  end.

(** [data.x || d]: the default replaces [undefined], 0 and NaN. *)
Definition orDefault (o : option num) (d : num) : num :=
  match o with
  | Some (Fin u) => if Qeq_bool u 0 then d else Fin u
  | _ => d
  end.

Definition createLocalPlayer (key : string) : M unit :=
  let player :=
    mkPlayer key true
             (Vector3.mk (Fin 0) (Fin 50) (Fin 0))
             (Euler.mk (Fin 0) (Fin 0) (Fin 0))
             (Vector3.mk (Fin 0) (Fin 0) (Fin 0))
             (Fin 0) (Fin 100) (Fin 100) (Fin 0) (Fin 0) None in
  modify (fun g =>
    mkGame (heightMap g) (seed g) (manaNodes g)
           (match mapGet (players g) key with
            | Some _ => mapUpdate (players g) key (fun _ => player)
            | None => players g ++ [(key, player)]
            end)
           (Some key)
           (isTransitioning g) (transitionAlpha g)
           (worldTransitionComplete g) (spellCooldown g) (activeSpells g)
           (randomCalls g) (trace g)).

Definition createNetworkPlayer (data : Snapshot) : M unit :=
  existing <- gets (fun g => mapGet (players g) (data_id data)) ;;
  match existing with
  | Some _ => ret tt
  | None =>
      let player :=
        mkPlayer (data_id data) false
                 (Vector3.mk (orDefault (data_x data) (Fin 0))
                             (orDefault (data_y data) (Fin 20))
                             (orDefault (data_z data) (Fin 0)))
                 (Euler.mk (Fin 0) (Fin 0) (Fin 0))
                 (Vector3.mk (Fin 0) (Fin 0) (Fin 0))
                 (Fin 0) (Fin 100) (Fin 100) (Fin 0) (Fin 0) None in
      modify (fun g => set_players g (players g ++ [(data_id data, player)]))
  end.

Definition startWorldTransition : M unit :=
  transitioning <- gets isTransitioning ;;
  if transitioning then ret tt
  else
    modify (fun g => set_isTransitioning g true) ;;
    modify (fun g => set_transitionAlpha g (Fin 0)) ;;
    modify (fun g => set_worldTransitionComplete g (Some RegenerateWorld)).

Definition checkWorldBoundaries : M unit :=
  player <- getLocalPlayer ;;
  transitioning <- gets isTransitioning ;;
  match player with
  | None => ret tt
  | Some p =>
      if transitioning then ret tt
      else
        let halfSize := (WorldSystem.worldSize / Fin 2 - Fin 50)%js in
        if ((Num.abs (Vector3.x (position p)) >? halfSize)
            || (Num.abs (Vector3.z (position p)) >? halfSize))%js
        then startWorldTransition
        else ret tt
  end.

Section Transition.

Variable noise : num -> num -> num.
Variable random : nat -> Q.

(** The closure assigned to [worldTransitionComplete]. *)
Definition runCallback (c : Callback) : M unit :=
  match c with
  | RegenerateWorld =>
      r <- WorldSystem.Math_random random ;;
      modify (fun g => set_seed g (r * Fin 1000)%js) ;;
      WorldSystem.createTerrain noise ;;
      WorldSystem.createTerrainCollision noise ;;
      WorldSystem.createManaNodes random ;;
      player <- getLocalPlayer ;;
      p <- deref player ;;
      modifyPlayer (id p) (fun q =>
        set_position q (Vector3.mk (Fin 0) (Fin 50) (Fin 0))) ;;
      modifyPlayer (id p) (fun q =>
        set_velocity q (Vector3.mk (Fin 0) (Fin 0) (Fin 0)))
  end.

Definition updateTransition (delta : num) : M unit :=
  modify (fun g =>
    set_transitionAlpha g (transitionAlpha g + delta * Fin 0.5)%js) ;;
  alpha <- gets transitionAlpha ;;
  if (alpha >=? Fin 2)%js then
    modify (fun g => set_isTransitioning g false) ;;
    modify (fun g => set_transitionAlpha g (Fin 0)) ;;
    callback <- gets worldTransitionComplete ;;
    match callback with
    | Some c =>
        runCallback c ;;
        modify (fun g => set_worldTransitionComplete g None)
    | None => ret tt
    end
  else ret tt.

(** [checkManaCollection()] of PlayerSystem: the collection radius is
    5 and every collected value is added to the local player's mana. *)
Definition checkManaCollection : M unit :=
  player <- getLocalPlayer ;;
  match player with
  | None => ret tt
  | Some p =>
      collectedNodes <-
        WorldSystem.checkManaCollection (position p) (Fin 5) ;;
      modifyPlayer (id p) (fun q =>
        fold_left (fun r node => set_mana r (mana r + collected_value node)%js)
                  collectedNodes q)
  end.

(** Input translation, force integration and model synchronisation are
    collaborators of the frame; camera and network hand-over do not
    touch the objects modelled here. *)
Variable handleInput : num -> M unit.
Variable updatePhysics : num -> M unit.
Variable updateModels : M unit.

Definition update (delta : num) : M unit :=
  player <- getLocalPlayer ;;
  match player with
  | None => ret tt
  | Some _ =>
      transitioning <- gets isTransitioning ;;
      if transitioning then updateTransition delta
      else
        handleInput delta ;;
        updatePhysics delta ;;
        updateModels ;;
        PlayerSpells.updateSpells delta ;;
        checkManaCollection ;;
        checkWorldBoundaries
  end.

(** Successive animation frames: the engine schedules the next frame
    before it updates the systems, so a frame that throws is followed
    by the next one on the state it left behind. *)
Definition frames (deltas : list num) (g : Game) : Game :=
  fold_left (fun s delta => finalState (update delta s)) deltas g.

End Transition.

End PlayerSystem.

(** * Vocabulary of the properties *)

(** How a call ended, without the object graph it left. *)
Inductive Completion (A : Type) : Type :=
| Returned (a : A)
| Thrown (e : Error).

Arguments Returned {A} a.
Arguments Thrown {A} e.

Definition completion {A : Type} (o : Outcome A) : Completion A :=
  match o with
  | Ok a _ => Returned a
  | Throw e _ => Thrown e
  end.

(** The height map that [WorldSystem.createTerrainCollision] leaves behind. *)
Definition generated (noise : num -> num -> num) (g : Game) : Game :=
  finalState (WorldSystem.createTerrainCollision noise g).

(** The grid coordinate computed from a world coordinate [u] when the
    grid has 101 lines. *)
Definition gridCoordinate (u : Q) : Q :=
  ((u + 1000 / 2) / 1000 * (inject_Z (Z.of_nat 101) - 1))%Q.

(** A height map as [createTerrainCollision] builds it from a noise that
    returns numbers: 101 rows of 101 cells, none of them NaN. *)
Definition gridOk (hm : list (list num)) : Prop :=
  List.length hm = 101%nat /\
  Forall (fun row =>
            List.length row = 101%nat /\
            Forall (fun c => Num.isFinite c = true) row) hm.

(** ** A running world

    The state the engine reaches after initialisation, for a noise that is
    zero everywhere (flat terrain at height 0), a random source that always
    returns one half, and a carpet that faces along +z (where
    [applyEuler] is the identity). *)

Module Example.

Definition emptyGame : Game :=
  mkGame [] (Fin 0) [] [] None false (Fin 0) None (Fin 0) [] 0 [].

Definition flatNoise (a b : num) : num := Fin 0.
Definition half (n : nat) : Q := 1 / 2.
Definition facingZ (v : Vector3.t) (e : Euler.t) : Vector3.t := v.

Definition joined (key : string) (x y z : Q) : Snapshot :=
  mkSnapshot key (Some (Fin x)) (Some (Fin y)) (Some (Fin z)) None None None.

Definition initialize : M unit :=
  WorldSystem.createTerrain flatNoise ;;
  WorldSystem.createManaNodes half ;;
  PlayerSystem.createLocalPlayer "player_1" ;;
  PlayerSystem.createNetworkPlayer (joined "player_ai_1" 10 5 20) ;;
  PlayerSystem.createNetworkPlayer (joined "player_ai_2" (-15) 7 (-5)).

Definition world : Game := finalState (initialize emptyGame).

(** Running a method for its effect on the object graph. *)
Definition after {A : Type} (c : M A) (g : Game) : Game := finalState (c g).

(** The local carpet as [createLocalPlayer] makes it. *)
Definition carpet : Player :=
  mkPlayer "player_1" true
           (Vector3.mk (Fin 0) (Fin 50) (Fin 0))
           (Euler.mk (Fin 0) (Fin 0) (Fin 0))
           (Vector3.mk (Fin 0) (Fin 0) (Fin 0))
           (Fin 0) (Fin 100) (Fin 100) (Fin 0) (Fin 0) None.

(** The carpet has flown low to (10, 5, -42) and a third bot has joined
    next to the first one. *)
Definition crowded : Game :=
  after (modifyPlayer "player_1" (fun p =>
           set_position p (Vector3.mk (Fin 10) (Fin 5) (Fin (-42)))) ;;
         PlayerSystem.createNetworkPlayer (joined "player_ai_3" 11 5 20))
        world.

(** Two Fireballs in flight: one cast, half a time unit of frame, the
    next cast. *)
Definition twoInFlight : Game :=
  after (PlayerSpells.castSpell facingZ ;;
         PlayerSpells.updateSpells (Fin 0.5) ;;
         PlayerSpells.castSpell facingZ)
        crowded.

(** A bot hovering at height 1 over the flat ground, and a projectile
    diving past it. *)
Definition lowBot : Game :=
  after (PlayerSystem.createNetworkPlayer (joined "player_ai_3" 30 1 30))
        world.

Definition diving : Spell :=
  mkSpell (Vector3.mk (Fin 30) (Fin 1) (Fin 29)) (Fin 0xff3300) "Fireball"
          (Fin 20) (Vector3.mk (Fin 0) (Fin (-100)) (Fin 0)) (Fin 3)
          "player_1".

Definition tieBreak : Game := set_activeSpells lowBot [diving].

(** A Lightning bolt that has reached the eastern edge of the world,
    heading east. *)
Definition bolt : Spell :=
  mkSpell (Vector3.mk (Fin 500) (Fin 60) (Fin 0)) (Fin 0x33ccff) "Lightning"
          (Fin 15) (Vector3.mk (Fin 150) (Fin 0) (Fin 0)) (Fin 2)
          "player_1".

Definition boltAtEdge : Game := set_activeSpells world [bolt].



End Example.

(** ** Mana collection *)


(** What the call returns for it. *)
Definition entry (node : ManaNode) : Collected :=
  mkCollected (node_position node) (node_value node).


(** ** Casting *)

(** Number of projectiles handed to the scene so far. *)
Fixpoint spawned (t : list Event) : nat :=
  match t with
  | [] => 0
  | SceneAddSpell _ :: rest => S (spawned rest)
  | _ :: rest => spawned rest
  end.

Definition projectilesSpawned (g : Game) : nat := spawned (trace g).

(** What can happen between two casts: a spell slot is selected, a frame
    of [delta] time units runs [updateSpells], or a cast is attempted. *)
Inductive Action : Type :=
| Select (index : num)
| Tick (delta : Q)
| Cast.

Definition elapsed (actions : list Action) : Q :=
  fold_right (fun a acc => match a with Tick d => d + acc | _ => acc end)%Q
             0%Q actions.

Definition nonNegativeTicks (actions : list Action) : Prop :=
  Forall (fun a => match a with Tick d => (0 <= d)%Q | _ => True end) actions.

Section Acting.

Variable applyEuler : Vector3.t -> Euler.t -> Vector3.t.

Definition act (a : Action) : M unit :=
  match a with
  | Select index => PlayerSpells.selectSpell index
  | Tick delta => PlayerSpells.updateSpells (Fin delta)
  | Cast => PlayerSpells.castSpell applyEuler
  end.

(** Each action is its own event-loop callback: one that throws leaves its
    mutations behind and the next one runs all the same. *)
Definition perform (actions : list Action) (g : Game) : Game :=
  fold_left (fun s a => finalState (act a s)) actions g.

End Acting.

(** A method keeps an observation [f] of the object graph, however it
    ends. *)
Definition keeps {A X : Type} (f : Game -> X) (c : M A) : Prop :=
  forall g, f (finalState (c g)) = f g.

(** The player object that [localPlayer] refers to. *)
Definition localOf (g : Game) : option Player :=
  match localPlayer g with
  | Some key => mapGet (players g) key
  | None => None
  end.

(** ** Projectiles *)

(** The projectiles taken out of the scene so far, in order. *)
Fixpoint removals (t : list Event) : list Spell :=
  match t with
  | [] => []
  | SceneRemoveSpell s :: rest => s :: removals rest
  | _ :: rest => removals rest
  end.

Definition healths (g : Game) : list num :=
  map (fun entry => health (snd entry)) (players g).

(** ** World transition *)

(** Number of terrain meshes handed to the scene so far: one per run of
    [createTerrain]. *)
Fixpoint terrainsBuilt (t : list Event) : nat :=
  match t with
  | [] => 0
  | SceneAddTerrain :: rest => S (terrainsBuilt rest)
  | _ :: rest => terrainsBuilt rest
  end.

(** Equality of numbers as values. *)
Definition sameNumber (a b : num) : bool :=
  match a, b with
  | Fin u, Fin v => Qeq_bool u v
  | NaN, NaN => true
  | _, _ => false
  end.

Definition localPosition (g : Game) : option Vector3.t :=
  option_map position (localOf g).

Module Crossing.

(** No input, and a carpet that stays where it is. *)
Definition idle (delta : num) : M unit := ret tt.

Definition play : list num -> Game -> Game :=
  PlayerSystem.frames Example.flatNoise Example.half idle idle (ret tt).

(** The carpet has flown to x = 460, past the boundary buffer at 450. *)
Definition atEdge : Game :=
  Example.after
    (modifyPlayer "player_1" (fun p =>
       set_position p (Vector3.mk (Fin 460) (Fin 50) (Fin 0))))
    Example.world.

(** The frame in which the boundary check starts the transition, then two
    frames of 2 time units each: alpha is 1 after the first and 2 after
    the second. *)
Definition started : Game := play [Fin 0] atEdge.
Definition midpoint : Game := play [Fin 0; Fin 2] atEdge.
Definition finished : Game := play [Fin 0; Fin 2; Fin 2] atEdge.

End Crossing.

(** ** Bounds on an actor *)




Module Remote.

(** A snapshot for the first bot with a health of 500 and a target 100
    below the ground. *)
Definition wild : Snapshot :=
  mkSnapshot "player_ai_1" (Some (Fin 10)) (Some (Fin (-100))) (Some (Fin 20))
             None None (Some (Fin 500)).

(** A snapshot for the first bot that carries y, rotationY and mana but
    no x and no z. *)
Definition partial : Snapshot :=
  mkSnapshot "player_ai_1" None (Some (Fin 100)) None
             (Some (Fin 1)) (Some (Fin 7)) None.

End Remote.

(** ** Remote snapshots *)

(** A field of a snapshot taken on its own: when present the attribute
    moves to [applied], when absent it keeps its value. *)
Definition fieldApplied (field : option num) (old new : num)
           (applied : num -> num) : bool :=
  match field with
  | Some v => sameNumber new (applied v)
  | None => sameNumber new old
  end.

(** Every one of the six fields treated on its own: positions and
    rotation interpolated by 0.3, mana and health copied. *)
Definition appliedFieldByField (data : Snapshot) (p p' : Player) : bool :=
  fieldApplied (data_x data)
    (Vector3.x (position p)) (Vector3.x (position p'))
    (fun v => Vector3.x (position p)
              + (v - Vector3.x (position p)) * Fin 0.3)%js
  && fieldApplied (data_y data)
       (Vector3.y (position p)) (Vector3.y (position p'))
       (fun v => Vector3.y (position p)
                 + (v - Vector3.y (position p)) * Fin 0.3)%js
  && fieldApplied (data_z data)
       (Vector3.z (position p)) (Vector3.z (position p'))
       (fun v => Vector3.z (position p)
                 + (v - Vector3.z (position p)) * Fin 0.3)%js
  && fieldApplied (data_rotationY data)
       (Euler.y (rotation p)) (Euler.y (rotation p'))
       (fun v => MathUtils_lerp (Euler.y (rotation p)) v (Fin 0.3))
  && fieldApplied (data_mana data) (mana p) (mana p') (fun v => v)
  && fieldApplied (data_health data) (health p) (health p') (fun v => v).

(** The attributes after a snapshot as the source applies it: the
    position moves only when x, y and z are all present. *)
Definition snapshotPosition (data : Snapshot) (p : Player) : Vector3.t :=
  match data_x data, data_y data, data_z data with
  | Some x, Some y, Some z =>
      Vector3.lerp (position p) (Vector3.mk x y z) (Fin 0.3)
  | _, _, _ => position p
  end.

Definition snapshotRotation (data : Snapshot) (p : Player) : Euler.t :=
  match data_rotationY data with
  | Some r =>
      Euler.set_y (rotation p) (MathUtils_lerp (Euler.y (rotation p)) r (Fin 0.3))
  | None => rotation p
  end.

Definition snapshotMana (data : Snapshot) (p : Player) : num :=
  match data_mana data with Some m => m | None => mana p end.

Definition snapshotHealth (data : Snapshot) (p : Player) : num :=
  match data_health data with Some h => h | None => health p end.

Definition bot (g : Game) (key : string) (d : Player) : Player :=
  match mapGet (players g) key with
  | Some p => p
  | None => d
  end.

(** ** Interpolation *)


(** A height map of 101 by 101 numbers between [lo] and [hi]. *)
Definition cellsWithin (lo hi : Q) (hm : list (list num)) : Prop :=
  List.length hm = 101%nat /\
  Forall (fun row =>
            List.length row = 101%nat /\
            Forall (fun c => exists q, c = Fin q /\ (lo <= q <= hi)%Q) row) hm.

(** The world coordinate for which [createTerrainCollision] computes row
    (or column) [i]. *)
Definition gridLine (i : Z) : Q := (inject_Z i * 10 - 500)%Q.

(** A noise with values in [-1, 1], as a simplex noise has. *)
Definition unitNoise (noise : num -> num -> num) : Prop :=
  forall a b, exists c, noise (Fin a) (Fin b) = Fin c /\ (-1 <= c <= 1)%Q.

(** ** Fresh mana nodes *)

(** A node as [createManaNodes] places it over the height map of [g]:
    visible, uncollected, within 400 of the centre on both axes, 10 above
    the terrain under it, with an integer value from 10 to 29. *)
Definition freshNode (g : Game) (node : ManaNode) : Prop :=
  node_collected node = false
  /\ node_visible node = true
  /\ exists x z h k,
      node_position node = Vector3.mk (Fin x) (Fin (h + 10)) (Fin z)
      /\ (-400 <= x < 400)%Q /\ (-400 <= z < 400)%Q
      /\ completion (WorldSystem.getTerrainHeight (Fin x) (Fin z) g)
         = Returned (Fin h)
      /\ node_value node = Fin (10 + inject_Z k)
      /\ (0 <= k <= 19)%Z.

(** A source of random numbers as [Math.random] is: in [0, 1). *)
Definition unitRandom (random : nat -> Q) : Prop :=
  forall n, (0 <= random n < 1)%Q.

(** ** What a frame of spells may change *)




(** A method relates the object graph it finds to the one it leaves by
    [R], however it ends. *)
Definition respects {A : Type} (R : Game -> Game -> Prop) (c : M A) : Prop :=
  forall g, R g (finalState (c g)).

(** A projectile whose (x, z) are numbers inside the world bounds. *)
Definition overMap (s : Spell) : Prop :=
  exists x z,
    Vector3.x (spell_position s) = Fin x
    /\ Vector3.z (spell_position s) = Fin z
    /\ (-500 <= x <= 500)%Q /\ (-500 <= z <= 500)%Q.

(** Decidable form of [overMap]. *)
Definition overMapb (s : Spell) : bool :=
  match Vector3.x (spell_position s), Vector3.z (spell_position s) with
  | Fin x, Fin z =>
      Qle_bool (-500) x && Qle_bool x 500 && Qle_bool (-500) z && Qle_bool z 500
  | _, _ => false
  end.

(** ** Ownership of projectiles *)

Definition ownedBy (o : string) (s : Spell) : Prop := spell_owner s = o.

(** Same keys and ids, and the health of every player with id [o] as it
    was. *)
Definition ownerKept (o : string) (ps ps' : list (string * Player)) : Prop :=
  Forall2 (fun e e' =>
             fst e = fst e'
             /\ id (snd e') = id (snd e)
             /\ (id (snd e) = o -> health (snd e') = health (snd e)))
          ps ps'.

(** When every live projectile belongs to [o], so does every live
    projectile afterwards, and no player with id [o] has lost or gained
    health. *)
Definition ownerSpared (o : string) (g g' : Game) : Prop :=
  Forall (ownedBy o) (activeSpells g) ->
  Forall (ownedBy o) (activeSpells g')
  /\ ownerKept o (players g) (players g')
  /\ localPlayer g' = localPlayer g.

(** Every live projectile belongs to the local player, whose id is [o]
    and whose health is [h]. *)
Definition localUnharmed (o : string) (h : num) (g : Game) : Prop :=
  Forall (ownedBy o) (activeSpells g)
  /\ exists p, localOf g = Some p /\ id p = o /\ health p = h.

(** What repeated [splice(i, 1)] leaves of the live set. *)
Definition spliced (i : nat) (l l' : list Spell) : Prop :=
  firstn i l' = firstn i l
  /\ incl (skipn i l') (skipn i l)
  /\ (List.length l' <= List.length l)%nat
  /\ ((i <= List.length l)%nat -> (i <= List.length l')%nat).

(** ** The shield *)

(** The players with their health blanked: what the projectile loop
    cannot change. *)
Definition healthErased (g : Game) : list (string * Player) :=
  map (fun e => (fst e, set_health (snd e) (Fin 0))) (players g).

(** The same, with the reference to the local player. *)
Definition beyondHealth (g : Game) : option string * list (string * Player) :=
  (localPlayer g, healthErased g).

(** What a frame of [delta] leaves of a shield. *)
Definition shieldAfter (delta : num) (s : option Shield) : option Shield :=
  match s with
  | Some sh =>
      if (shield_duration sh - delta <=? Fin 0)%js then None
      else Some (mkShield (shield_duration sh - delta)%js)
  | None => None
  end.

(** ** The end of a world transition *)

(** What the regeneration of the world does not touch. *)
Definition besideWorld (g : Game)
  : bool * num * option Callback * num * list Spell * option string :=
  (isTransitioning g, transitionAlpha g, worldTransitionComplete g,
   spellCooldown g, activeSpells g, localPlayer g).

(** The local player as the regeneration leaves it: at the centre of the
    new world, at rest. *)
Definition recentred (p : Player) : Player :=
  set_velocity
    (set_position p (Vector3.mk (Fin 0) (Fin 50) (Fin 0)))
    (Vector3.mk (Fin 0) (Fin 0) (Fin 0)).


(** ** A transition under way *)




(** ** The edge of the world *)

(** A coordinate more than 450 away from the centre.  A coordinate that
    is not a number is never beyond the edge. *)
Definition beyondEdge (u : num) : Prop :=
  match u with
  | Fin q => (450 < Qabs q)%Q
  | NaN => False
  end.


(** ** A snapshot received again and again *)




(** ** Climbing and sinking *)

(** What happens to the altitude of a carpet: the input pushes it up or
    down, or a frame settles it. *)
Inductive AltitudeStep : Type :=
| Push (force : Q)
| Settle (delta : Q).

Definition altitudeStep (key : string) (s : AltitudeStep) : M unit :=
  match s with
  | Push force => PlayerPhysics.applyAltitudeChange key (Fin force)
  | Settle delta => PlayerPhysics.updateAltitude key (Fin delta)
  end.

(** Each step is run whatever the one before it did, as frames are. *)
Definition altitudeSteps (key : string) (steps : list AltitudeStep)
           (g : Game) : Game :=
  fold_left (fun s a => finalState (altitudeStep key a s)) steps g.

(** A vertical speed of at most 60 in either direction. *)
Definition climbBounded (p : Player) : Prop :=
  exists v, altitudeVelocity p = Fin v /\ (-60 <= v <= 60)%Q.

(** The player under [key] exists and has such a vertical speed. *)
Definition climbOk (key : string) (g : Game) : Prop :=
  exists p, mapGet (players g) key = Some p /\ climbBounded p.

(** The steps of a method keep [climbOk]. *)
Definition climbKept (key : string) (g g' : Game) : Prop :=
  climbOk key g -> climbOk key g'.


(** ** Mana credited to the carpet *)





(** ** The selected slot *)

(** A slot that names one of the spell types. *)
Definition validSlot (s : num) : Prop :=
  exists t, arrayGet PlayerSpells.spellTypes s = Some t.

(** The local player exists, is stored under its own id, and has such a
    slot selected. *)
Definition slotOk (g : Game) : Prop :=
  exists p,
    localOf g = Some p
    /\ localPlayer g = Some (id p)
    /\ validSlot (currentSpell p).

(** Every selection asks for a whole-numbered slot, in range or not, as
    the digit keys do. *)
Definition wholeSelections (actions : list Action) : Prop :=
  Forall (fun a => match a with
                   | Select i => exists k : Z, i = Fin (inject_Z k)
                   | _ => True
                   end) actions.


(** ** Projectiles that are used up *)

(** A projectile that the loop of [updateSpells] removes without looking
    at the players: below the terrain under it, or out of life. *)
Definition spent (g : Game) (s : Spell) : bool :=
  match completion (WorldSystem.getTerrainHeight
                      (Vector3.x (spell_position s))
                      (Vector3.z (spell_position s)) g) with
  | Returned terrainY =>
      ((Vector3.y (spell_position s) <? terrainY)
       || (spell_life s <=? Fin 0))%js
  | Thrown _ => false
  end.


(** ** The life of a projectile *)




(** * Properties *)

(** Closed facts about the running examples are settled by evaluation. *)
Ltac split_all := repeat match goal with |- _ /\ _ => split end.
Ltac by_evaluation := intros; split_all; vm_compute; reflexivity.

(** ** Comparisons *)

Lemma Qltb_lt (u v : Q) : Num.Qltb u v = true <-> (u < v)%Q.
Proof.
  unfold Num.Qltb. rewrite negb_true_iff. split; intro H.
  - apply Qnot_le_lt. intro L. apply Qle_bool_iff in L. congruence.
  - destruct (Qle_bool v u) eqn:E; [|reflexivity].
    apply Qle_bool_iff in E. exfalso. exact (Qlt_not_le _ _ H E).
Qed.


(** ** Outcomes *)

Lemma outcome_eta {A : Type} (o : Outcome A) :
  o = match completion o with
      | Returned a => Ok a (finalState o)
      | Thrown e => Throw e (finalState o)
      end.
Proof. destruct o; reflexivity. Qed.

Lemma bind_Ok {A B : Type} (c : M A) (k : A -> M B) (g g' : Game) (a : A) :
  c g = Ok a g' -> bind c k g = k a g'.
Proof. intro H. unfold bind. rewrite H. reflexivity. Qed.

Lemma bind_Throw {A B : Type} (c : M A) (k : A -> M B) (g g' : Game) e :
  c g = Throw e g' -> bind c k g = Throw e g'.
Proof. intro H. unfold bind. rewrite H. reflexivity. Qed.

(** ** Array access *)

Lemma arrayGet_inject_Z {A : Type} (a : list A) (k : Z) :
  arrayGet a (Fin (inject_Z k)) =
  if (0 <=? k)%Z then nth_error a (Z.to_nat k) else None.
Proof.
  unfold arrayGet. rewrite Qfloor_Z.
  replace (Qeq_bool (inject_Z k) (inject_Z k)) with true
    by (symmetry; apply Qeq_bool_refl).
  reflexivity.
Qed.

Lemma arrayGet_inside {A : Type} (a : list A) (k : Z) :
  (0 <= k < Z.of_nat (List.length a))%Z ->
  exists v, arrayGet a (Fin (inject_Z k)) = Some v /\ In v a.
Proof.
  intros [Hlo Hhi]. rewrite arrayGet_inject_Z.
  apply Z.leb_le in Hlo as Hb. rewrite Hb.
  destruct (nth_error a (Z.to_nat k)) as [v|] eqn:E.
  - exists v. split; [reflexivity|]. eapply nth_error_In; eassumption.
  - apply nth_error_None in E. lia.
Qed.

Lemma arrayGet_beyond {A : Type} (a : list A) (k : Z) :
  (Z.of_nat (List.length a) <= k)%Z ->
  arrayGet a (Fin (inject_Z k)) = None.
Proof.
  intro H. rewrite arrayGet_inject_Z.
  destruct (0 <=? k)%Z; [|reflexivity].
  apply nth_error_None. lia.
Qed.

Lemma arrayGet_negative {A : Type} (a : list A) (k : Z) :
  (k < 0)%Z -> arrayGet a (Fin (inject_Z k)) = None.
Proof.
  intro H. rewrite arrayGet_inject_Z.
  apply Z.leb_gt in H. rewrite H. reflexivity.
Qed.

(** ** Terrain sampling *)

Module TerrainFacts.

Import WorldSystem.

(** The sampling reads [heightMap] and nothing else, and writes nothing. *)
Lemma getTerrainHeight_state (x z : num) (g : Game) :
  finalState (getTerrainHeight x z g) = g.
Proof.
  unfold getTerrainHeight, bind, gets, deref, ret, throw.
  destruct (arrayGet (heightMap g) (Fin 0)); [|reflexivity].
  destruct (arrayGet (heightMap g) _); [|reflexivity].
  destruct (arrayGet (heightMap g) _); reflexivity.
Qed.

Lemma getTerrainHeight_reads_heightMap (x z : num) (g g' : Game) :
  heightMap g = heightMap g' ->
  completion (getTerrainHeight x z g) = completion (getTerrainHeight x z g').
Proof.
  intro H.
  unfold getTerrainHeight, bind, gets, deref, ret, throw.
  rewrite <- H.
  destruct (arrayGet (heightMap g) (Fin 0)); [|reflexivity].
  destruct (arrayGet (heightMap g) _); [|reflexivity].
  destruct (arrayGet (heightMap g) _); reflexivity.
Qed.

(** Moving a sample to another object graph with the same height map. *)
Lemma getTerrainHeight_transport (x z : num) (g g' : Game) :
  heightMap g = heightMap g' ->
  getTerrainHeight x z g' =
  match completion (getTerrainHeight x z g) with
  | Returned h => Ok h g'
  | Thrown e => Throw e g'
  end.
Proof.
  intro H.
  rewrite (outcome_eta (getTerrainHeight x z g')).
  rewrite getTerrainHeight_state.
  rewrite (getTerrainHeight_reads_heightMap x z g' g (eq_sym H)).
  reflexivity.
Qed.


Lemma generated_heightMap noise g :
  heightMap (generated noise g) =
  map (fun i => map (cellHeight noise (seed g) i) (seq 0 101)) (seq 0 101).
Proof. reflexivity. Qed.

Lemma generated_rows noise g :
  List.length (heightMap (generated noise g)) = 101%nat.
Proof.
  rewrite generated_heightMap, length_map, length_seq. reflexivity.
Qed.

End TerrainFacts.

Module TerrainBounds.

Import WorldSystem TerrainFacts.

Lemma halfSize_value : (worldSize / Fin 2)%js = Fin (1000 / 2).
Proof. reflexivity. Qed.

Lemma div_worldSize (u : Q) : (Fin u / worldSize)%js = Fin (u / 1000).
Proof. reflexivity. Qed.


Lemma gridCoordinate_value (u : Q) : (gridCoordinate u == (u + 500) / 10)%Q.
Proof. unfold gridCoordinate. simpl inject_Z. field. Qed.

Lemma gridCoordinate_inside (u : Q) :
  (-500 <= u <= 500)%Q -> (0 <= gridCoordinate u <= 100)%Q.
Proof.
  intros [Hlo Hhi]. rewrite gridCoordinate_value.
  split.
  - apply Qle_shift_div_l; lra.
  - apply Qle_shift_div_r; lra.
Qed.

Lemma floor_inside (q : Q) :
  (0 <= q <= 100)%Q -> (0 <= Qfloor q <= 100)%Z.
Proof.
  intros [Hlo Hhi]. split.
  - change 0%Z with (Qfloor 0). apply Qfloor_resp_le. exact Hlo.
  - change 100%Z with (Qfloor 100). apply Qfloor_resp_le. exact Hhi.
Qed.

Lemma ceiling_inside (q : Q) :
  (0 <= q <= 100)%Q -> (0 <= Qceiling q <= 100)%Z.
Proof.
  intros [Hlo Hhi]. split.
  - change 0%Z with (Qceiling 0). apply Qceiling_resp_le. exact Hlo.
  - change 100%Z with (Qceiling 100). apply Qceiling_resp_le. exact Hhi.
Qed.

Lemma min_ceiling_inside (q : Q) :
  (0 <= q <= 100)%Q ->
  Num.min (Num.ceil (Fin q)) (Num.ofNat 101 - Fin 1)%js
  = Fin (inject_Z (Qceiling q)).
Proof.
  intro H. apply ceiling_inside in H. destruct H as [_ Hhi].
  unfold Num.min, Num.ceil, Num.ofNat, Num.sub, Num.lift2, Num.lift1.
  replace (Qle_bool (inject_Z (Qceiling q))
                    (inject_Z (Z.of_nat 101) - 1)) with true;
    [reflexivity|].
  symmetry. apply Qle_bool_iff.
  apply Qle_trans with (inject_Z 100).
  - rewrite <- Zle_Qle. exact Hhi.
  - apply Qle_bool_iff. reflexivity.
Qed.


Lemma gridOk_cell (hm : list (list num)) (i j : Z) :
  gridOk hm ->
  (0 <= i <= 100)%Z -> (0 <= j <= 100)%Z ->
  exists row c,
    arrayGet hm (Fin (inject_Z i)) = Some row /\
    arrayGet row (Fin (inject_Z j)) = Some (Fin c).
Proof.
  intros [Hlen Hrows] Hi Hj.
  destruct (arrayGet_inside hm i) as [row [Hrow Hin]]; [lia|].
  rewrite Forall_forall in Hrows.
  destruct (Hrows row Hin) as [Hrl Hcells].
  destruct (arrayGet_inside row j) as [c [Hc Hcin]]; [lia|].
  rewrite Forall_forall in Hcells.
  specialize (Hcells c Hcin).
  destruct c as [c|]; [|discriminate].
  exists row, c. split; assumption.
Qed.

(** A noise that maps numbers to numbers and a numeric seed give such a
    height map. *)
Lemma cellHeight_finite noise (s : Q) (i j : nat) :
  (forall a b, exists c, noise (Fin a) (Fin b) = Fin c) ->
  Num.isFinite (cellHeight noise (Fin s) i j) = true.
Proof.
  intro Hnoise. unfold cellHeight.
  change (Num.ofNat resolution) with (Fin 100).
  unfold Num.ofNat.
  change (Fin (inject_Z (Z.of_nat i)) / Fin 100)%js
    with (Fin (inject_Z (Z.of_nat i) / 100)).
  change (Fin (inject_Z (Z.of_nat j)) / Fin 100)%js
    with (Fin (inject_Z (Z.of_nat j) / 100)).
  rewrite halfSize_value.
  change (Fin ?a * worldSize)%js with (Fin (a * 1000)).
  change (Fin ?a - Fin ?b)%js with (Fin (a - b)).
  rewrite !div_worldSize.
  change (Fin ?a * Fin ?b)%js with (Fin (a * b)).
  change (Fin ?a + Fin ?b)%js with (Fin (a + b)).
  repeat match goal with
         | |- context [noise (Fin ?a) (Fin ?b)] =>
             let c := fresh "c" in
             let E := fresh "E" in
             destruct (Hnoise a b) as [c E]; rewrite E; clear E
         end.
  reflexivity.
Qed.

Lemma generated_gridOk noise (g : Game) (s : Q) :
  seed g = Fin s ->
  (forall a b, exists c, noise (Fin a) (Fin b) = Fin c) ->
  gridOk (heightMap (generated noise g)).
Proof.
  intros Hs Hnoise. rewrite generated_heightMap, Hs. split.
  - rewrite length_map, length_seq. reflexivity.
  - apply Forall_forall. intros row Hrow.
    apply in_map_iff in Hrow. destruct Hrow as [i [<- _]]. split.
    + rewrite length_map, length_seq. reflexivity.
    + apply Forall_forall. intros c Hc.
      apply in_map_iff in Hc. destruct Hc as [j [<- _]].
      apply cellHeight_finite. exact Hnoise.
Qed.

(** Inside the nominal world bounds the sampling returns a number. *)
Lemma getTerrainHeight_inside (x z : Q) (g : Game) :
  gridOk (heightMap g) ->
  (-500 <= x <= 500)%Q -> (-500 <= z <= 500)%Q ->
  exists h, getTerrainHeight (Fin x) (Fin z) g = Ok (Fin h) g.
Proof.
  intros Hok Hx Hz.
  pose proof (gridCoordinate_inside x Hx) as Hnx.
  pose proof (gridCoordinate_inside z Hz) as Hnz.
  assert (H0 : (0 <= 0 <= 100)%Z) by lia.
  destruct (gridOk_cell _ _ _ Hok H0 H0) as [row0 [c0 [Hrow0 _]]].
  assert (Hrow0len : List.length row0 = 101%nat).
  { destruct Hok as [_ Hrows]. rewrite Forall_forall in Hrows.
    change (Fin (inject_Z 0)) with (Fin 0) in Hrow0.
    unfold arrayGet in Hrow0. simpl in Hrow0.
    destruct (heightMap g) as [|r rs]; [discriminate|].
    injection Hrow0 as <-. apply (Hrows r). left. reflexivity. }
  pose proof (floor_inside _ Hnx) as Hfx.
  pose proof (ceiling_inside _ Hnx) as Hcx.
  pose proof (floor_inside _ Hnz) as Hfz.
  pose proof (ceiling_inside _ Hnz) as Hcz.
  destruct (gridOk_cell _ _ _ Hok Hfx Hfz) as [r1 [h11 [Hr1 Hh11]]].
  destruct (gridOk_cell _ _ _ Hok Hfx Hcz) as [r1' [h12 [Hr1' Hh12]]].
  destruct (gridOk_cell _ _ _ Hok Hcx Hfz) as [r2 [h21 [Hr2 Hh21]]].
  destruct (gridOk_cell _ _ _ Hok Hcx Hcz) as [r2' [h22 [Hr2' Hh22]]].
  rewrite Hr1 in Hr1'. injection Hr1' as <-.
  rewrite Hr2 in Hr2'. injection Hr2' as <-.
  unfold getTerrainHeight, bind, gets.
  destruct Hok as [Hlen _]. rewrite Hlen.
  change (arrayGet (heightMap g) (Fin 0)) with
    (arrayGet (heightMap g) (Fin (inject_Z 0))).
  rewrite Hrow0. cbv beta iota delta [deref ret].
  rewrite Hrow0len.
  rewrite halfSize_value.
  change ((Fin x + Fin (1000 / 2)) / worldSize * (Num.ofNat 101 - Fin 1))%js
    with (Fin (gridCoordinate x)).
  change ((Fin z + Fin (1000 / 2)) / worldSize * (Num.ofNat 101 - Fin 1))%js
    with (Fin (gridCoordinate z)).
  rewrite !min_ceiling_inside by assumption.
  change (Num.floor (Fin (gridCoordinate x)))
    with (Fin (inject_Z (Qfloor (gridCoordinate x)))).
  change (Num.floor (Fin (gridCoordinate z)))
    with (Fin (inject_Z (Qfloor (gridCoordinate z)))).
  rewrite Hr1, Hr2. cbv beta iota delta [deref ret].
  rewrite Hh11, Hh12, Hh21, Hh22.
  simpl. eexists. reflexivity.
Qed.

End TerrainBounds.

(** ** Sampling outside the cached grid *)

Module TerrainEdge.

Import WorldSystem TerrainFacts.

(** On every generated height map, a sample east of the grid reads a row
    that does not exist. *)
Lemma getTerrainHeight_east_throws noise (g : Game) (z : num) :
  getTerrainHeight (Fin 750) z (generated noise g)
  = Throw TypeError (generated noise g).
Proof.
  unfold getTerrainHeight, bind, gets.
  rewrite generated_rows.
  rewrite generated_heightMap at 1.
  change (arrayGet (map _ (seq 0 101)) (Fin 0)) with
    (Some (map (cellHeight noise (seed g) 0) (seq 0 101))).
  cbv beta iota delta [deref ret].
  change (Num.floor ((Fin 750 + worldSize / Fin 2) / worldSize
                     * (Num.ofNat 101 - Fin 1))%js)
    with (Fin (inject_Z 125)).
  rewrite arrayGet_beyond; [reflexivity|].
  rewrite generated_rows. lia.
Qed.

(** C1 (getTerrainHeight, safety): the claim says every input is clamped to
    the grid and the sampling returns a finite value.  In the running world
    the sample at (750, 0) throws a TypeError and the sample at (0, 750)
    returns NaN: only the upper of the two indices per axis is clamped. *)
Theorem getTerrainHeight_outside_grid :
  getTerrainHeight (Fin 750) (Fin 0) Example.world
  = Throw TypeError Example.world
  /\ getTerrainHeight (Fin 0) (Fin 750) Example.world
     = Ok NaN Example.world
  /\ getTerrainHeight (Fin (-510)) (Fin 0) Example.world
     = Throw TypeError Example.world.
Proof.
  by_evaluation.
Qed.

(** A projectile that flies past the eastern edge makes every following
    frame of [updateSpells] throw, and stays in the live set. *)
Lemma updateSpells_throws_past_edge :
  let frame1 := PlayerSpells.updateSpells (Fin 0.1) Example.boltAtEdge in
  let frame2 := PlayerSpells.updateSpells (Fin 0.1) (finalState frame1) in
  completion frame1 = Thrown TypeError
  /\ completion frame2 = Thrown TypeError
  /\ List.length (activeSpells (finalState frame2)) = 1%nat.
Proof.
  by_evaluation.
Qed.

End TerrainEdge.

(** C7 (getTerrainHeight, purity): a call leaves the object graph as it
    found it, its result is determined by the height map alone, and two
    successive calls return the same value. *)
Theorem getTerrainHeight_pure (x z : num) (g g' : Game) :
  heightMap g = heightMap g' ->
  finalState (WorldSystem.getTerrainHeight x z g) = g
  /\ completion (WorldSystem.getTerrainHeight x z g)
     = completion (WorldSystem.getTerrainHeight x z g')
  /\ completion
       ((a <- WorldSystem.getTerrainHeight x z ;;
         b <- WorldSystem.getTerrainHeight x z ;;
         ret (a, b)) g)
     = match completion (WorldSystem.getTerrainHeight x z g) with
       | Returned h => Returned (h, h)
       | Thrown e => Thrown e
       end.
Proof.
  intro H. split; [|split].
  - apply TerrainFacts.getTerrainHeight_state.
  - apply TerrainFacts.getTerrainHeight_reads_heightMap. exact H.
  - unfold bind at 1.
    rewrite (outcome_eta (WorldSystem.getTerrainHeight x z g)).
    rewrite TerrainFacts.getTerrainHeight_state.
    destruct (completion (WorldSystem.getTerrainHeight x z g)) as [h|e] eqn:E;
      [|reflexivity].
    unfold bind.
    rewrite (outcome_eta (WorldSystem.getTerrainHeight x z g)).
    rewrite TerrainFacts.getTerrainHeight_state, E.
    reflexivity.
Qed.

Lemma getTerrainHeight_pure_witness :
  heightMap Example.world = heightMap (set_seed Example.world (Fin 7))
  /\ finalState (WorldSystem.getTerrainHeight (Fin 3) (Fin 4) Example.world)
     = Example.world.
Proof.
  split; [reflexivity|].
  apply (getTerrainHeight_pure (Fin 3) (Fin 4) Example.world
           (set_seed Example.world (Fin 7))).
  reflexivity.
Defined.

(** ** Mana collection *)

Module Collection.

Import WorldSystem.




(** For positions that are numbers, [inReach] is the Euclidean test
    [distance < radius + 2], with the distance compared through its
    square. *)
Lemma inReach_euclidean (px py pz nx ny nz r : Q) (node : ManaNode) :
  node_position node = Vector3.mk (Fin nx) (Fin ny) (Fin nz) ->
  inReach (Vector3.mk (Fin px) (Fin py) (Fin pz)) (Fin r) node = true
  <-> (0 < r + 2
       /\ (px - nx) * (px - nx) + (py - ny) * (py - ny) + (pz - nz) * (pz - nz)
          < (r + 2) * (r + 2))%Q.
Proof.
  intro Hn. unfold inReach, Vector3.distanceToLt, Vector3.distanceToSquared.
  rewrite Hn. simpl.
  rewrite andb_true_iff, !Qltb_lt. reflexivity.
Qed.




End Collection.


(** ** Observations that a method keeps *)

Section Keeps.

Context {X : Type} (f : Game -> X).

Lemma keeps_ret {A : Type} (a : A) : keeps f (ret a).
Proof. intro g. reflexivity. Qed.

Lemma keeps_throw {A : Type} (e : Error) : keeps f (@throw A e).
Proof. intro g. reflexivity. Qed.

Lemma keeps_gets {A : Type} (h : Game -> A) : keeps f (gets h).
Proof. intro g. reflexivity. Qed.

Lemma keeps_deref {A : Type} (o : option A) : keeps f (deref o).
Proof. destruct o; intro g; reflexivity. Qed.

Lemma keeps_modify (h : Game -> Game) :
  (forall g, f (h g) = f g) -> keeps f (modify h).
Proof. intros H g. apply H. Qed.

Lemma keeps_bind {A B : Type} (c : M A) (k : A -> M B) :
  keeps f c -> (forall a, keeps f (k a)) -> keeps f (bind c k).
Proof.
  intros Hc Hk g. unfold bind. specialize (Hc g).
  destruct (c g) as [a g'|e g']; simpl in Hc.
  - rewrite Hk. exact Hc.
  - exact Hc.
Qed.

Lemma keeps_getTerrainHeight (x z : num) :
  keeps f (WorldSystem.getTerrainHeight x z).
Proof. intro g. rewrite TerrainFacts.getTerrainHeight_state. reflexivity. Qed.

Lemma keeps_forEachPlayer (body : Player -> M Player) ps :
  (forall p, keeps f (body p)) -> keeps f (forEachPlayer body ps).
Proof.
  intro Hb. induction ps as [|[key p] rest IH]; simpl.
  - apply keeps_ret.
  - apply keeps_bind; [apply Hb|]. intro p'.
    apply keeps_bind; [exact IH|]. intro rest'. apply keeps_ret.
Qed.

End Keeps.

Ltac keeps_step :=
  first
    [ apply keeps_ret
    | apply keeps_throw
    | apply keeps_gets
    | apply keeps_deref
    | apply keeps_getTerrainHeight
    | apply keeps_bind; [|intro]
    | apply keeps_modify; intro; reflexivity
    | match goal with
      | |- keeps _ (match ?o with _ => _ end) => destruct o
      | |- keeps _ (if ?b then _ else _) => destruct b
      end ].

Ltac keeps_auto := repeat keeps_step.

Module SpellFacts.

Import PlayerSpells.

Lemma keeps_cooldown_updateShield delta :
  keeps spellCooldown (updateShield delta).
Proof.
  unfold updateShield, getLocalPlayer, modifyPlayer, emit. keeps_auto.
Qed.

Lemma keeps_cooldown_hitPlayer spell i p :
  keeps spellCooldown (hitPlayer spell i p).
Proof. unfold hitPlayer, emit. keeps_auto. Qed.

Lemma keeps_cooldown_updateProjectile delta i :
  keeps spellCooldown (updateProjectile delta i).
Proof.
  unfold updateProjectile, playersForEach, emit. keeps_auto.
  apply keeps_forEachPlayer. intro q. apply keeps_cooldown_hitPlayer.
Qed.

Lemma keeps_cooldown_updateProjectiles delta n :
  keeps spellCooldown (updateProjectiles delta n).
Proof.
  induction n as [|i IH]; simpl.
  - apply keeps_ret.
  - apply keeps_bind; [apply keeps_cooldown_updateProjectile|].
    intro. exact IH.
Qed.

(** A frame lowers a running cooldown by the frame time and leaves an
    expired one alone. *)
Lemma updateSpells_cooldown delta g :
  spellCooldown (finalState (updateSpells delta g))
  = if (spellCooldown g >? Fin 0)%js
    then (spellCooldown g - delta)%js
    else spellCooldown g.
Proof.
  unfold updateSpells. unfold bind at 1. unfold gets at 1.
  assert (K : forall s,
    spellCooldown
      (finalState
         ((updateShield delta ;;
           n <- gets (fun g0 => List.length (activeSpells g0)) ;;
           updateProjectiles delta n) s)) = spellCooldown s).
  { apply keeps_bind; [apply keeps_cooldown_updateShield|]. intro.
    apply keeps_bind; [apply keeps_gets|]. intro n.
    apply keeps_cooldown_updateProjectiles. }
  unfold bind at 1.
  destruct (spellCooldown g >? Fin 0)%js.
  - unfold modify at 1. rewrite K. reflexivity.
  - unfold ret at 1. rewrite K. reflexivity.
Qed.

End SpellFacts.

Module CastFacts.

Import PlayerSpells SpellFacts.

Lemma spawned_app (s t : list Event) :
  spawned (s ++ t) = (spawned s + spawned t)%nat.
Proof.
  induction s as [|e s IH]; [reflexivity|].
  destruct e; simpl; rewrite IH; reflexivity.
Qed.

Lemma keeps_spawned_emit (e : Event) :
  spawned [e] = 0%nat -> keeps projectilesSpawned (emit e).
Proof.
  intros H g. unfold projectilesSpawned. simpl.
  rewrite spawned_app, H. lia.
Qed.

Ltac spawned_step :=
  first
    [ keeps_step
    | apply keeps_spawned_emit; reflexivity ].

Lemma keeps_spawned_hitPlayer spell i p :
  keeps projectilesSpawned (hitPlayer spell i p).
Proof. unfold hitPlayer. repeat spawned_step. Qed.

Lemma keeps_spawned_updateProjectiles delta n :
  keeps projectilesSpawned (updateProjectiles delta n).
Proof.
  induction n as [|i IH]; simpl.
  - apply keeps_ret.
  - apply keeps_bind; [|intro; exact IH].
    unfold updateProjectile, playersForEach. repeat spawned_step.
    apply keeps_forEachPlayer. intro q. apply keeps_spawned_hitPlayer.
Qed.

Lemma keeps_spawned_updateSpells delta :
  keeps projectilesSpawned (updateSpells delta).
Proof.
  unfold updateSpells, updateShield, getLocalPlayer, modifyPlayer.
  repeat spawned_step.
  apply keeps_spawned_updateProjectiles.
Qed.

Lemma keeps_spawned_selectSpell index :
  keeps projectilesSpawned (selectSpell index).
Proof.
  unfold selectSpell, getLocalPlayer, modifyPlayer. repeat spawned_step.
Qed.

Lemma keeps_cooldown_selectSpell index :
  keeps spellCooldown (selectSpell index).
Proof.
  unfold selectSpell, getLocalPlayer, modifyPlayer, emit. keeps_auto.
Qed.

Section Gate.

Variable applyEuler : Vector3.t -> Euler.t -> Vector3.t.

(** While the cooldown runs, a cast request returns at once. *)
Lemma castSpell_blocked (g : Game) :
  (spellCooldown g >? Fin 0)%js = true ->
  castSpell applyEuler g = Ok tt g.
Proof.
  intro H. unfold castSpell, bind, getLocalPlayer, gets.
  destruct (match localPlayer g with
            | Some key => mapGet (players g) key
            | None => None
            end); [|reflexivity].
  rewrite H. reflexivity.
Qed.

(** An accepted cast arms the gate with the cooldown of the slot cast. *)
Lemma castSpell_arms (g : Game) (p : Player) (spellType : SpellType) :
  localOf g = Some p ->
  (spellCooldown g >? Fin 0)%js = false ->
  arrayGet spellTypes (currentSpell p) = Some spellType ->
  spellCooldown (finalState (castSpell applyEuler g)) = st_cooldown spellType.
Proof.
  intros Hp Hcd Hst. unfold castSpell, bind at 1, getLocalPlayer, gets.
  fold (localOf g). rewrite Hp. unfold bind at 1. rewrite Hcd, Hst.
  unfold bind at 1. simpl deref. unfold ret at 1.
  unfold bind at 1. unfold modify at 1.
  match goal with
  | |- spellCooldown (finalState (?c ?s)) = _ =>
      assert (K : keeps spellCooldown c)
  end.
  { unfold createShieldEffect, getLocalPlayer, modifyPlayer, emit.
    keeps_auto. }
  rewrite K. reflexivity.
Qed.

Lemma castSpell_fireball_spawns (g : Game) (p : Player) :
  localOf g = Some p ->
  (spellCooldown g >? Fin 0)%js = false ->
  currentSpell p = Fin 0 ->
  projectilesSpawned (finalState (castSpell applyEuler g))
  = S (projectilesSpawned g).
Proof.
  intros Hp Hcd Hst. unfold castSpell, bind at 1, getLocalPlayer, gets.
  fold (localOf g). rewrite Hp. unfold bind at 1. rewrite Hcd, Hst.
  unfold projectilesSpawned. simpl.
  rewrite !spawned_app. simpl. lia.
Qed.

Lemma elapsed_nonneg (actions : list Action) :
  nonNegativeTicks actions -> (0 <= elapsed actions)%Q.
Proof.
  induction 1 as [|a rest Ha _ IH]; simpl; [lra|].
  destruct a; simpl in *; lra.
Qed.

(** Within the cooldown window nothing re-opens the gate: after actions
    that take less time than the cooldown left, what is left is the
    difference, every attempted cast was turned away, and no projectile
    was spawned. *)
Lemma gate_holds (actions : list Action) : forall (g : Game) (c : Q),
  spellCooldown g = Fin c ->
  nonNegativeTicks actions ->
  (elapsed actions < c)%Q ->
  exists c',
    spellCooldown (perform applyEuler actions g) = Fin c'
    /\ (c' == c - elapsed actions)%Q
    /\ projectilesSpawned (perform applyEuler actions g)
       = projectilesSpawned g.
Proof.
  induction actions as [|a rest IH]; intros g c Hc Hnn Hlt.
  - exists c. simpl. repeat split; [exact Hc|lra].
  - inversion Hnn as [|a' rest' Ha Hrest]; subst.
    pose proof (elapsed_nonneg rest Hrest) as Hpos.
    simpl perform.
    destruct a as [index|d|]; simpl in Ha, Hlt |- *.
    + destruct (IH (finalState (selectSpell index g)) c) as [c' [H1 [H2 H3]]];
        [rewrite keeps_cooldown_selectSpell; exact Hc|exact Hrest|exact Hlt|].
      exists c'. repeat split; [exact H1|exact H2|].
      rewrite H3. apply keeps_spawned_selectSpell.
    + assert (Hrun : (spellCooldown g >? Fin 0)%js = true).
      { rewrite Hc. apply Qltb_lt. lra. }
      destruct (IH (finalState (updateSpells (Fin d) g)) (c - d)%Q)
        as [c' [H1 [H2 H3]]];
        [rewrite updateSpells_cooldown, Hrun, Hc; reflexivity
        |exact Hrest|lra|].
      exists c'. repeat split; [exact H1|lra|].
      rewrite H3. apply keeps_spawned_updateSpells.
    + assert (Hrun : (spellCooldown g >? Fin 0)%js = true).
      { rewrite Hc. apply Qltb_lt. lra. }
      rewrite (castSpell_blocked g Hrun). simpl finalState.
      apply IH; assumption.
Qed.

End Gate.

End CastFacts.

(** C8 (castSpell, cooldown gate): a cast requested while the cooldown is
    above zero changes nothing at all; and after a Fireball (cooldown 0.5)
    is cast, a second request within 0.1 time units of frames is such a
    no-op, so exactly one projectile has been spawned. *)
Theorem castSpell_rejected_during_cooldown
        (applyEuler : Vector3.t -> Euler.t -> Vector3.t) :
  (forall s : Game,
      (spellCooldown s >? Fin 0)%js = true ->
      PlayerSpells.castSpell applyEuler s = Ok tt s)
  /\ (forall (g : Game) (p : Player) (frames : list Q),
        localOf g = Some p ->
        currentSpell p = Fin 0 ->
        (spellCooldown g >? Fin 0)%js = false ->
        Forall (fun d => 0 <= d)%Q frames ->
        (elapsed (map Tick frames) <= 0.1)%Q ->
        let g1 := finalState (PlayerSpells.castSpell applyEuler g) in
        let g2 := perform applyEuler (map Tick frames) g1 in
        PlayerSpells.castSpell applyEuler g2 = Ok tt g2
        /\ projectilesSpawned g2 = S (projectilesSpawned g)).
Proof.
  split.
  - apply CastFacts.castSpell_blocked.
  - intros g p frames Hp Hslot Hcd Hnn Hsum g1 g2.
    assert (Harm : spellCooldown g1 = Fin 0.5).
    { unfold g1.
      rewrite (CastFacts.castSpell_arms applyEuler g p
                 (mkSpellType "Fireball" (Fin 0xff3300) (Fin 20) (Fin 100)
                              (Fin 0.5)) Hp Hcd);
        [reflexivity|].
      rewrite Hslot. reflexivity. }
    assert (Hticks : nonNegativeTicks (map Tick frames)).
    { unfold nonNegativeTicks. rewrite Forall_map. exact Hnn. }
    destruct (CastFacts.gate_holds applyEuler (map Tick frames) g1 0.5
                Harm Hticks) as [c' [H1 [H2 H3]]].
    { eapply Qle_lt_trans; [exact Hsum|]. reflexivity. }
    fold g2 in H1, H3. split.
    + apply CastFacts.castSpell_blocked. rewrite H1.
      apply Qltb_lt. rewrite H2.
      assert ((0.1 < 0.5)%Q) by reflexivity. lra.
    + rewrite H3. unfold g1.
      apply (CastFacts.castSpell_fireball_spawns applyEuler g p Hp Hcd Hslot).
Qed.


(** ** Projectile termination *)

Module ProjectileFacts.

Import PlayerSpells.

Lemma splice1_arraySet {A : Type} (l : list A) (i : nat) (v : A) :
  splice1 (arraySet l i v) i = splice1 l i.
Proof.
  revert i. induction l as [|a l IH]; intros [|i]; simpl;
    try reflexivity.
  rewrite IH. reflexivity.
Qed.

(** The terrain branch of one loop iteration. *)
Lemma updateProjectile_terrain (delta : num) (i : nat) (g : Game)
      (spell0 : Spell) (terrainY : num) :
  nth_error (activeSpells g) i = Some spell0 ->
  let spell := advance spell0 delta in
  completion (WorldSystem.getTerrainHeight
                (Vector3.x (spell_position spell))
                (Vector3.z (spell_position spell)) g) = Returned terrainY ->
  (Vector3.y (spell_position spell) <? terrainY)%js = true ->
  updateProjectile delta i g
  = Ok tt (set_trace
             (set_activeSpells g (splice1 (activeSpells g) i))
             (trace g ++ [SceneRemoveSpell spell;
                          ImpactEffect (spell_position spell)
                                       (spell_color spell)])).
Proof.
  intros Hnth spell Hterrain Hbelow.
  unfold updateProjectile.
  unfold bind at 1, gets at 1.
  unfold bind at 1. rewrite Hnth. simpl deref. unfold ret at 1.
  unfold bind at 1, modify at 1.
  fold spell.
  unfold bind at 1.
  rewrite (TerrainFacts.getTerrainHeight_transport _ _ g);
    [|reflexivity].
  rewrite Hterrain.
  rewrite Hbelow. simpl orb. cbv iota.
  unfold bind, emit, modify. simpl.
  rewrite splice1_arraySet, <- app_assoc. reflexivity.
Qed.

End ProjectileFacts.

(** C5 (updateSpells, tie-break): when the advanced projectile is below the
    terrain at its (x, z), the iteration removes it with the terrain
    impact effect and returns before the players are visited, so no
    player is touched, whoever is within the hit radius. *)
Theorem terrain_impact_precedes_actor_impact
        (delta : num) (i : nat) (g : Game) (spell0 : Spell) (terrainY : num) :
  nth_error (activeSpells g) i = Some spell0 ->
  let spell := PlayerSpells.advance spell0 delta in
  completion (WorldSystem.getTerrainHeight
                (Vector3.x (spell_position spell))
                (Vector3.z (spell_position spell)) g) = Returned terrainY ->
  (Vector3.y (spell_position spell) <? terrainY)%js = true ->
  exists g',
    PlayerSpells.updateProjectile delta i g = Ok tt g'
    /\ players g' = players g
    /\ activeSpells g' = splice1 (activeSpells g) i
    /\ trace g' = trace g ++ [SceneRemoveSpell spell;
                              ImpactEffect (spell_position spell)
                                           (spell_color spell)].
Proof.
  intros Hnth spell Hterrain Hbelow.
  eexists. split.
  - apply (ProjectileFacts.updateProjectile_terrain delta i g spell0 terrainY
             Hnth Hterrain Hbelow).
  - repeat split.
Qed.

Lemma terrain_impact_precedes_actor_impact_witness :
  let g := Example.tieBreak in
  let spell := PlayerSpells.advance Example.diving (Fin 0.02) in
  (exists bot,
      mapGet (players g) "player_ai_3" = Some bot
      /\ String.eqb (id bot) (spell_owner spell) = false
      /\ Vector3.distanceToLt (position bot) (spell_position spell) (Fin 3)
         = true)
  /\ (Vector3.y (spell_position spell) <? Fin 0)%js = true
  /\ exists g',
      PlayerSpells.updateProjectile (Fin 0.02) 0 g = Ok tt g'
      /\ players g' = players g
      /\ activeSpells g' = []
      /\ healths g' = [Fin 100; Fin 100; Fin 100; Fin 100].
Proof.
  intros g spell. split; [|split].
  - eexists. split; [vm_compute; reflexivity|].
    split; vm_compute; reflexivity.
  - vm_compute. reflexivity.
  - edestruct (terrain_impact_precedes_actor_impact
                 (Fin 0.02) 0 g Example.diving)
      as [g' [Hrun [Hplayers [Hspells _]]]].
    + reflexivity.
    + vm_compute. reflexivity.
    + vm_compute. reflexivity.
    + exists g'. split; [exact Hrun|]. split; [exact Hplayers|].
      split; [exact Hspells|].
      unfold healths. rewrite Hplayers. vm_compute. reflexivity.
Defined.

(** C2 (updateSpells, one termination per projectile): the claim says a
    projectile is removed once and nothing fires for it afterwards.  With
    two Fireballs in flight and two bots within the hit radius of the
    first, one frame damages both bots with that one projectile, takes it
    out of the scene twice, and the second [splice] drops the other
    Fireball from the live set although nothing terminated it. *)
Theorem projectile_terminates_twice :
  let before := Example.twoInFlight in
  let after := finalState (PlayerSpells.updateSpells (Fin 0.1) before) in
  exists first second,
    activeSpells before = [first; second]
    /\ healths before = [Fin 100; Fin 100; Fin 100; Fin 100]
    /\ threw (PlayerSpells.updateSpells (Fin 0.1) before) = false
    /\ healths after = [Fin 100; Fin 80; Fin 100; Fin 80]
    /\ removals (trace after)
       = [PlayerSpells.advance first (Fin 0.1);
          PlayerSpells.advance first (Fin 0.1)]
    /\ activeSpells after = [].
Proof.
  intros before after.
  eexists. eexists. split; [vm_compute; reflexivity|].
  by_evaluation.
Qed.

(** ** World transition *)

Module TransitionFacts.

Import PlayerSystem.

Section Running.

Variable noise : num -> num -> num.
Variable random : nat -> Q.


(** From alpha 2 on, the frame ends the transition, runs the stored
    callback and clears it. *)
Lemma updateTransition_complete (delta : num) (g : Game) :
  ((transitionAlpha g + delta * Fin 0.5) >=? Fin 2)%js = true ->
  worldTransitionComplete g = Some RegenerateWorld ->
  updateTransition noise random delta g
  = (runCallback noise random RegenerateWorld ;;
     modify (fun s => set_worldTransitionComplete s None))
      (set_transitionAlpha
         (set_isTransitioning
            (set_transitionAlpha g (transitionAlpha g + delta * Fin 0.5)%js)
            false)
         (Fin 0)).
Proof.
  intros H Hcb. unfold updateTransition.
  unfold bind at 1, modify at 1.
  unfold bind at 1, gets at 1.
  change (transitionAlpha (set_transitionAlpha g ?v)) with v. rewrite H.
  unfold bind at 1, modify at 1.
  unfold bind at 1, modify at 1.
  unfold bind at 1, gets at 1.
  change (worldTransitionComplete (set_transitionAlpha ?s ?v))
    with (worldTransitionComplete s).
  change (worldTransitionComplete (set_isTransitioning ?s ?v))
    with (worldTransitionComplete s).
  change (worldTransitionComplete (set_transitionAlpha ?s ?v))
    with (worldTransitionComplete s).
  rewrite Hcb. reflexivity.
Qed.

End Running.

End TransitionFacts.

(** C3 (updateTransition, regeneration point): the claim places the
    regeneration at alpha = 1.  After the carpet crosses the boundary the
    transition starts; at alpha = 1 nothing has been regenerated (same
    seed, no terrain built, carpet still at x = 460, callback still
    pending); the callback runs once, in the frame that reaches alpha = 2
    and ends the transition. *)
Theorem regeneration_fires_at_end_of_transition :
  isTransitioning Crossing.atEdge = false
  /\ isTransitioning Crossing.started = true
  /\ worldTransitionComplete Crossing.started = Some RegenerateWorld
  (* alpha = 1 *)
  /\ sameNumber (transitionAlpha Crossing.midpoint) (Fin 1) = true
  /\ isTransitioning Crossing.midpoint = true
  /\ terrainsBuilt (trace Crossing.midpoint)
     = terrainsBuilt (trace Crossing.started)
  /\ seed Crossing.midpoint = seed Crossing.started
  /\ localPosition Crossing.midpoint
     = Some (Vector3.mk (Fin 460) (Fin 50) (Fin 0))
  /\ worldTransitionComplete Crossing.midpoint = Some RegenerateWorld
  (* alpha = 2 *)
  /\ isTransitioning Crossing.finished = false
  /\ terrainsBuilt (trace Crossing.finished)
     = S (terrainsBuilt (trace Crossing.started))
  /\ sameNumber (seed Crossing.finished) (Fin 500) = true
  /\ localPosition Crossing.finished
     = Some (Vector3.mk (Fin 0) (Fin 50) (Fin 0))
  /\ worldTransitionComplete Crossing.finished = None.
Proof.
  by_evaluation.
Qed.

(** ** Bounds on an actor *)

Module BoundFacts.

Import PlayerPhysics.

Lemma mapGet_mapUpdate (m : list (string * Player)) (key : string)
      (f : Player -> Player) :
  mapGet (mapUpdate m key f) key = option_map f (mapGet m key).
Proof.
  induction m as [|[k p] rest IH]; [reflexivity|].
  simpl. destruct (String.eqb k key) eqn:E; simpl; rewrite E.
  - reflexivity.
  - exact IH.
Qed.






End BoundFacts.

Module AltitudeFacts.

Import PlayerPhysics BoundFacts.

Lemma bind_assoc {A B C : Type} (c : M A) (k : A -> M B) (k' : B -> M C)
      (g : Game) :
  bind (bind c k) k' g = bind c (fun a => bind (k a) k') g.
Proof. unfold bind. destruct (c g); reflexivity. Qed.

Lemma ret_bind {A B : Type} (a : A) (k : A -> M B) (g : Game) :
  bind (ret a) k g = k a g.
Proof. reflexivity. Qed.







End AltitudeFacts.

Module DamageFacts.

Import PlayerSpells.


End DamageFacts.




(** ** Remote snapshots *)

Module SnapshotFacts.

Import PlayerSystem BoundFacts.

Lemma updateNetworkPlayer_absent (data : Snapshot) (g : Game) :
  mapGet (players g) (data_id data) = None ->
  updateNetworkPlayer data g = Ok tt g.
Proof.
  intro H. unfold updateNetworkPlayer, bind, gets. rewrite H. reflexivity.
Qed.

Lemma updateNetworkPlayer_local (data : Snapshot) (g : Game) (p : Player) :
  mapGet (players g) (data_id data) = Some p ->
  isLocal p = true ->
  updateNetworkPlayer data g = Ok tt g.
Proof.
  intros H Hl. unfold updateNetworkPlayer, bind, gets. rewrite H, Hl.
  reflexivity.
Qed.

Lemma updateNetworkPlayer_remote (data : Snapshot) (g : Game) (p : Player) :
  mapGet (players g) (data_id data) = Some p ->
  isLocal p = false ->
  exists g' p',
    updateNetworkPlayer data g = Ok tt g'
    /\ mapGet (players g') (data_id data) = Some p'
    /\ position p' = snapshotPosition data p
    /\ rotation p' = snapshotRotation data p
    /\ mana p' = snapshotMana data p
    /\ health p' = snapshotHealth data p
    /\ velocity p' = velocity p
    /\ maxHealth p' = maxHealth p
    /\ isLocal p' = false.
Proof.
  intros H Hl.
  unfold updateNetworkPlayer, bind at 1, gets at 1. rewrite H, Hl. simpl negb.
  cbv iota.
  unfold snapshotPosition, snapshotRotation, snapshotMana, snapshotHealth.
  destruct data as [key dx dy dz dr dm dh]. simpl in *.
  destruct dx as [x|], dy as [y|], dz as [z|], dr as [r|], dm as [m|],
           dh as [h|];
    unfold bind, modifyPlayer, modify, ret; simpl;
    eexists; eexists;
    (split; [reflexivity|]);
    cbn [players set_players];
    rewrite ?mapGet_mapUpdate, H; simpl;
    (split; [reflexivity|]); auto 10.
Qed.

End SnapshotFacts.

(** C9, as the code has it: applying a snapshot never fails; a snapshot
    for an unknown or the local player changes nothing; for a remote
    player a missing rotationY, mana or health leaves that attribute as it
    was, a present one is applied (rotation interpolated by 0.3, mana and
    health copied), and the position is interpolated by 0.3 when x, y and
    z are all present and otherwise stays as it was. *)
Theorem updateNetworkPlayer_applies (data : Snapshot) (g : Game) :
  exists g',
    PlayerSystem.updateNetworkPlayer data g = Ok tt g'
    /\ (forall p,
          mapGet (players g) (data_id data) = Some p ->
          isLocal p = false ->
          exists p',
            mapGet (players g') (data_id data) = Some p'
            /\ position p' = snapshotPosition data p
            /\ rotation p' = snapshotRotation data p
            /\ mana p' = snapshotMana data p
            /\ health p' = snapshotHealth data p)
    /\ (forall p,
          mapGet (players g) (data_id data) = Some p ->
          isLocal p = true -> g' = g)
    /\ (mapGet (players g) (data_id data) = None -> g' = g).
Proof.
  destruct (mapGet (players g) (data_id data)) as [p|] eqn:E.
  - destruct (isLocal p) eqn:El.
    + exists g. split; [apply (SnapshotFacts.updateNetworkPlayer_local data g p E El)|].
      split; [|split; [reflexivity|discriminate]].
      intros q Hq Hlq. injection Hq as <-. congruence.
    + destruct (SnapshotFacts.updateNetworkPlayer_remote data g p E El)
        as [g' [p' [Hrun [Hget [H1 [H2 [H3 [H4 _]]]]]]]].
      exists g'. split; [exact Hrun|].
      split; [|split; [|discriminate]].
      * intros q Hq _. injection Hq as <-. exists p'. auto.
      * intros q Hq Hlq. injection Hq as <-. congruence.
  - exists g. split; [apply (SnapshotFacts.updateNetworkPlayer_absent data g E)|].
    split; [discriminate|]. split; [discriminate|reflexivity].
Qed.

Lemma updateNetworkPlayer_applies_witness :
  let old := bot Example.world "player_ai_1" Example.carpet in
  mapGet (players Example.world) "player_ai_1" = Some old
  /\ isLocal old = false
  /\ exists g' p',
      PlayerSystem.updateNetworkPlayer Remote.wild Example.world = Ok tt g'
      /\ mapGet (players g') "player_ai_1" = Some p'
      /\ position p' = snapshotPosition Remote.wild old
      /\ health p' = Fin 500.
Proof.
  intro old.
  assert (Hold : mapGet (players Example.world) "player_ai_1" = Some old)
    by (vm_compute; reflexivity).
  assert (Hremote : isLocal old = false) by (vm_compute; reflexivity).
  split; [exact Hold|]. split; [exact Hremote|].
  destruct (updateNetworkPlayer_applies Remote.wild Example.world)
    as [g' [Hrun [Happly _]]].
  destruct (Happly old Hold Hremote) as [p' [Hget [Hpos [_ [_ Hhealth]]]]].
  exists g', p'. split; [exact Hrun|]. split; [exact Hget|].
  split; [exact Hpos|exact Hhealth].
Defined.

(** C9, as stated: every present field is applied.  A snapshot for the
    first bot that carries y = 100 but neither x nor z leaves the bot's
    height where it was, while its rotationY and mana are applied. *)
Lemma partial_position_not_applied :
  let before := Example.world in
  let after :=
    finalState (PlayerSystem.updateNetworkPlayer Remote.partial before) in
  let old := bot before "player_ai_1" Example.carpet in
  let new := bot after "player_ai_1" Example.carpet in
  data_y Remote.partial = Some (Fin 100)
  /\ isLocal old = false
  /\ appliedFieldByField Remote.partial old new = false
  /\ position new = position old
  /\ sameNumber (Vector3.y (position old)) (Fin 5) = true
  /\ sameNumber (Euler.y (rotation new)) (Fin 0.3) = true
  /\ sameNumber (mana new) (Fin 7) = true.
Proof.
  by_evaluation.
Qed.

Lemma castSpell_rejected_during_cooldown_witness :
  let g := Example.world in
  let g1 := finalState (PlayerSpells.castSpell Example.facingZ g) in
  let g2 := perform Example.facingZ [Tick 0.05; Tick 0.05] g1 in
  localOf g = Some Example.carpet
  /\ (elapsed [Tick 0.05; Tick 0.05] <= 0.1)%Q
  /\ PlayerSpells.castSpell Example.facingZ g2 = Ok tt g2
  /\ projectilesSpawned g2 = S (projectilesSpawned g).
Proof.
  intros g g1 g2.
  split; [vm_compute; reflexivity|].
  split; [vm_compute; discriminate|].
  apply (proj2 (castSpell_rejected_during_cooldown Example.facingZ)
               g Example.carpet [0.05; 0.05]%Q).
  - vm_compute. reflexivity.
  - reflexivity.
  - vm_compute. reflexivity.
  - repeat constructor; vm_compute; discriminate.
  - vm_compute. discriminate.
Defined.


(** * Further properties of the modelled code *)

(** ** Bilinear interpolation *)

Module Interpolation.

Import WorldSystem TerrainFacts TerrainBounds.

Lemma cellsWithin_gridOk (lo hi : Q) (hm : list (list num)) :
  cellsWithin lo hi hm -> gridOk hm.
Proof.
  intros [Hlen Hrows]. split; [exact Hlen|].
  eapply Forall_impl; [|exact Hrows].
  intros row [Hl Hcells]. split; [exact Hl|].
  eapply Forall_impl; [|exact Hcells].
  intros c [q [-> _]]. reflexivity.
Qed.








End Interpolation.


Module ExampleFacts.

Lemma world_heightMap :
  heightMap Example.world
  = heightMap (generated Example.flatNoise Example.emptyGame).
Proof. vm_compute. reflexivity. Qed.

Lemma flatNoise_unit : unitNoise Example.flatNoise.
Proof. intros a b. exists 0%Q. split; [reflexivity|]. split; discriminate. Qed.

Lemma world_gridOk : gridOk (heightMap Example.world).
Proof.
  rewrite world_heightMap.
  apply (TerrainBounds.generated_gridOk Example.flatNoise Example.emptyGame 0).
  - reflexivity.
  - intros a b. exists 0%Q. reflexivity.
Qed.

End ExampleFacts.

Module GridPoints.

Import WorldSystem TerrainFacts TerrainBounds.


Lemma gridCoordinate_gridLine (i : Z) :
  (gridCoordinate (gridLine i) == inject_Z i)%Q.
Proof. rewrite gridCoordinate_value. unfold gridLine. field. Qed.


Lemma ceiling_gridLine (i : Z) : Qceiling (gridCoordinate (gridLine i)) = i.
Proof. rewrite gridCoordinate_gridLine. apply Qceiling_Z. Qed.


End GridPoints.



Module Generation.

Import WorldSystem TerrainFacts TerrainBounds.

Lemma cellHeight_bounded noise (s : Q) (i j : nat) :
  unitNoise noise ->
  exists q, cellHeight noise (Fin s) i j = Fin q /\ (-52.5 <= q <= 52.5)%Q.
Proof.
  intro Hnoise. unfold cellHeight.
  change (Num.ofNat resolution) with (Fin 100).
  unfold Num.ofNat.
  change (Fin (inject_Z (Z.of_nat i)) / Fin 100)%js
    with (Fin (inject_Z (Z.of_nat i) / 100)).
  change (Fin (inject_Z (Z.of_nat j)) / Fin 100)%js
    with (Fin (inject_Z (Z.of_nat j) / 100)).
  rewrite halfSize_value.
  change (Fin ?a * worldSize)%js with (Fin (a * 1000)).
  change (Fin ?a - Fin ?b)%js with (Fin (a - b)).
  rewrite !div_worldSize.
  change (Fin ?a * Fin ?b)%js with (Fin (a * b)).
  change (Fin ?a + Fin ?b)%js with (Fin (a + b)).
  repeat match goal with
         | |- context [noise (Fin ?a) (Fin ?b)] =>
             let c := fresh "c" in
             let E := fresh "E" in
             let B := fresh "B" in
             destruct (Hnoise a b) as [c [E B]]; rewrite E; clear E
         end.
  eexists. split; [reflexivity|].
  change (Qmake 525 10) with 52.5%Q.
  split; lra.
Qed.

Lemma generated_cellsWithin noise (g : Game) (s : Q) :
  seed g = Fin s ->
  unitNoise noise ->
  cellsWithin (-52.5) 52.5 (heightMap (generated noise g)).
Proof.
  intros Hs Hnoise. rewrite generated_heightMap, Hs. split.
  - rewrite length_map, length_seq. reflexivity.
  - apply Forall_forall. intros row Hrow.
    apply in_map_iff in Hrow. destruct Hrow as [i [<- _]]. split.
    + rewrite length_map, length_seq. reflexivity.
    + apply Forall_forall. intros c Hc.
      apply in_map_iff in Hc. destruct Hc as [j [<- _]].
      apply cellHeight_bounded. exact Hnoise.
Qed.

End Generation.




(** ** Mana node placement *)

Module Placement.

Import WorldSystem TerrainFacts TerrainBounds.

Lemma freshNode_same_heightMap (g g' : Game) (node : ManaNode) :
  heightMap g = heightMap g' -> freshNode g node -> freshNode g' node.
Proof.
  intros Hm [Hc [Hv [x [z [h [k [Hp [Hx [Hz [Ht [Hval Hk]]]]]]]]]]].
  split; [exact Hc|]. split; [exact Hv|].
  exists x, z, h, k. repeat (split; try assumption).
  rewrite <- Ht. symmetry.
  apply getTerrainHeight_reads_heightMap. exact Hm.
Qed.

Lemma scatter_range (r : Q) :
  (0 <= r < 1)%Q -> (-400 <= (r - 0.5) * 1000 * 0.8 < 400)%Q.
Proof. intros [H0 H1]. split; lra. Qed.

Lemma value_range (r : Q) :
  (0 <= r < 1)%Q -> (0 <= Qfloor (r * 20) <= 19)%Z.
Proof.
  intros [H0 H1]. split.
  - change 0%Z with (Qfloor 0). apply Qfloor_resp_le. lra.
  - pose proof (Qfloor_le (r * 20)) as Hf.
    assert (Hlt : (inject_Z (Qfloor (r * 20)) < inject_Z 20)%Q).
    { change (inject_Z 20) with 20%Q. lra. }
    rewrite <- Zlt_Qlt in Hlt. lia.
Qed.

Section Scatter.

Variable random : nat -> Q.
Hypothesis Hrandom : unitRandom random.

Lemma createManaNodesLoop_places (n : nat) : forall g : Game,
  gridOk (heightMap g) ->
  exists g' placed,
    createManaNodesLoop random n g = Ok tt g'
    /\ manaNodes g' = manaNodes g ++ placed
    /\ List.length placed = n
    /\ Forall (freshNode g) placed
    /\ randomCalls g' = (randomCalls g + 3 * n)%nat
    /\ heightMap g' = heightMap g
    /\ players g' = players g
    /\ localPlayer g' = localPlayer g
    /\ activeSpells g' = activeSpells g
    /\ trace g' = trace g.
Proof.
  induction n as [|k IH]; intros g Hok.
  - exists g, []. simpl. rewrite app_nil_r, Nat.add_0_r.
    repeat split; constructor.
  - set (r1 := random (randomCalls g)).
    set (r2 := random (S (randomCalls g))).
    set (r3 := random (S (S (randomCalls g)))).
    set (x := ((r1 - 0.5) * 1000 * 0.8)%Q).
    set (z := ((r2 - 0.5) * 1000 * 0.8)%Q).
    pose proof (scatter_range r1 (Hrandom _)) as Hx.
    pose proof (scatter_range r2 (Hrandom _)) as Hz.
    pose proof (value_range r3 (Hrandom _)) as Hv.
    fold x in Hx. fold z in Hz.
    set (g2 := set_randomCalls (set_randomCalls g (S (randomCalls g)))
                               (S (S (randomCalls g)))).
    destruct (getTerrainHeight_inside x z g2 Hok) as [h Hh];
      [split; lra|split; lra|].
    set (node := mkManaNode (Vector3.mk (Fin x) (Fin (h + 10)) (Fin z)) true
                            (Fin (10 + inject_Z (Qfloor (r3 * 20)))) false).
    set (g3 := set_manaNodes
                 (set_randomCalls g2 (S (S (S (randomCalls g)))))
                 (manaNodes g ++ [node])).
    destruct (IH g3 Hok) as [g' [placed [Hrun [Hnodes [Hlen [Hfresh
                              [Hcalls [Hmap [Hpl [Hlp [Hsp Htr]]]]]]]]]]].
    exists g', (node :: placed).
    split.
    + rewrite <- Hrun. simpl createManaNodesLoop.
      unfold bind at 1. unfold Math_random at 1.
      unfold bind at 1, gets at 1. unfold bind at 1, modify at 1.
      unfold ret at 1.
      unfold bind at 1. unfold Math_random at 1.
      unfold bind at 1, gets at 1. unfold bind at 1, modify at 1.
      unfold ret at 1.
      cbn [randomCalls set_randomCalls].
      unfold bind at 1.
      change ((Fin (random (randomCalls g)) - Fin 0.5) * worldSize * Fin 0.8)%js
        with (Fin x).
      change ((Fin (random (S (randomCalls g))) - Fin 0.5) * worldSize
              * Fin 0.8)%js with (Fin z).
      fold g2. rewrite Hh.
      unfold bind at 1. unfold Math_random at 1.
      unfold bind at 1, gets at 1. unfold bind at 1, modify at 1.
      unfold ret at 1.
      unfold bind at 1, modify at 1.
      reflexivity.
    + split; [rewrite Hnodes; unfold g3; simpl; rewrite <- app_assoc;
              reflexivity|].
      split; [simpl; rewrite Hlen; reflexivity|].
      split.
      * constructor.
        -- split; [reflexivity|]. split; [reflexivity|].
           exists x, z, h, (Qfloor (r3 * 20)).
           split; [reflexivity|]. split; [exact Hx|]. split; [exact Hz|].
           split; [|split; [reflexivity|exact Hv]].
           rewrite (getTerrainHeight_reads_heightMap (Fin x) (Fin z) g g2 eq_refl).
           rewrite Hh. reflexivity.
        -- eapply Forall_impl; [|exact Hfresh].
           intros a Ha. apply (freshNode_same_heightMap g3 g a eq_refl Ha).
      * split; [rewrite Hcalls; unfold g3; simpl; lia|].
        split; [rewrite Hmap; reflexivity|].
        split; [rewrite Hpl; reflexivity|].
        split; [rewrite Hlp; reflexivity|].
        split; [rewrite Hsp; reflexivity|rewrite Htr; reflexivity].
Qed.

End Scatter.

End Placement.



(** ** Relations that a method respects *)

Section Respects.

Variable R : Game -> Game -> Prop.
Hypothesis R_refl : forall g, R g g.
Hypothesis R_trans : forall g1 g2 g3, R g1 g2 -> R g2 g3 -> R g1 g3.

Lemma respects_ret {A : Type} (a : A) : respects R (ret a).
Proof. intro g. apply R_refl. Qed.

Lemma respects_throw {A : Type} (e : Error) : respects R (@throw A e).
Proof. intro g. apply R_refl. Qed.

Lemma respects_gets {A : Type} (h : Game -> A) : respects R (gets h).
Proof. intro g. apply R_refl. Qed.

Lemma respects_deref {A : Type} (o : option A) : respects R (deref o).
Proof. destruct o; intro g; apply R_refl. Qed.

Lemma respects_modify (h : Game -> Game) :
  (forall g, R g (h g)) -> respects R (modify h).
Proof. intros H g. apply H. Qed.

Lemma respects_bind {A B : Type} (c : M A) (k : A -> M B) :
  respects R c -> (forall a, respects R (k a)) -> respects R (bind c k).
Proof.
  intros Hc Hk g. unfold bind. specialize (Hc g).
  destruct (c g) as [a g'|e g']; simpl in Hc.
  - eapply R_trans; [exact Hc|apply Hk].
  - exact Hc.
Qed.

Lemma respects_getTerrainHeight (x z : num) :
  respects R (WorldSystem.getTerrainHeight x z).
Proof.
  intro g. rewrite TerrainFacts.getTerrainHeight_state. apply R_refl.
Qed.

Lemma respects_forEachPlayer (body : Player -> M Player) ps :
  (forall p, respects R (body p)) -> respects R (forEachPlayer body ps).
Proof.
  intro Hb. induction ps as [|[key p] rest IH]; simpl.
  - apply respects_ret.
  - apply respects_bind; [apply Hb|]. intro p'.
    apply respects_bind; [exact IH|]. intro rest'. apply respects_ret.
Qed.

End Respects.

Module FrameFacts.

Import PlayerSpells.



















End FrameFacts.


(** ** The projectile loop *)

Module LoopFacts.

Import PlayerSpells.

Lemma firstn_splice1 {A : Type} (l : list A) (i : nat) :
  firstn i (splice1 l i) = firstn i l.
Proof.
  revert i. induction l as [|a l IH]; intros [|i]; simpl; try reflexivity.
  rewrite IH. reflexivity.
Qed.

Lemma skipn_splice1 {A : Type} (l : list A) (i : nat) :
  skipn i (splice1 l i) = skipn (S i) l.
Proof.
  revert i. induction l as [|a l IH]; intro i.
  - simpl splice1. rewrite !skipn_nil. reflexivity.
  - destruct i as [|i]; [reflexivity|].
    simpl. apply IH.
Qed.

Lemma length_splice1_le {A : Type} (l : list A) (i : nat) :
  (List.length (splice1 l i) <= List.length l)%nat.
Proof.
  revert i. induction l as [|a l IH]; intros [|i]; simpl; try lia.
  specialize (IH i). lia.
Qed.

Lemma length_splice1_ge {A : Type} (l : list A) (i : nat) :
  (i <= List.length l)%nat -> (i <= List.length (splice1 l i))%nat.
Proof.
  revert i. induction l as [|a l IH]; intros [|i] H; simpl in *; try lia.
  specialize (IH i). lia.
Qed.

Lemma firstn_arraySet {A : Type} (l : list A) (i : nat) (v : A) :
  firstn i (arraySet l i v) = firstn i l.
Proof.
  revert i. induction l as [|a l IH]; intros [|i]; simpl; try reflexivity.
  rewrite IH. reflexivity.
Qed.

Lemma skipn_arraySet {A : Type} (l : list A) (i : nat) (v a : A) :
  nth_error l i = Some a ->
  skipn i (arraySet l i v) = v :: skipn (S i) l.
Proof.
  revert i. induction l as [|b l IH]; intros [|i] H; simpl in *;
    try discriminate.
  - reflexivity.
  - apply IH. exact H.
Qed.

Lemma length_arraySet {A : Type} (l : list A) (i : nat) (v : A) :
  List.length (arraySet l i v) = List.length l.
Proof.
  revert i. induction l as [|a l IH]; intros [|i]; simpl; try reflexivity.
  rewrite IH. reflexivity.
Qed.

Lemma incl_skipn_S {A : Type} (l : list A) (i : nat) :
  incl (skipn (S i) l) (skipn i l).
Proof.
  revert i. induction l as [|a l IH]; intros i.
  - destruct i; intros x [].
  - destruct i as [|i].
    + simpl. intros x Hx. right. exact Hx.
    + simpl skipn at 2. change (skipn (S (S i)) (a :: l)) with (skipn (S i) l).
      apply IH.
Qed.

Lemma spliced_refl i l : spliced i l l.
Proof. repeat split; auto. apply incl_refl. Qed.

Lemma spliced_trans i l1 l2 l3 :
  spliced i l1 l2 -> spliced i l2 l3 -> spliced i l1 l3.
Proof.
  intros [A1 [B1 [C1 D1]]] [A2 [B2 [C2 D2]]].
  repeat split; try congruence; try lia; auto.
  eapply incl_tran; eassumption.
Qed.

Lemma spliced_splice1 i l : spliced i l (splice1 l i).
Proof.
  repeat split.
  - apply firstn_splice1.
  - rewrite skipn_splice1. apply incl_skipn_S.
  - apply length_splice1_le.
  - apply length_splice1_ge.
Qed.

Lemma hitPlayer_spliced spell i p g :
  exists p' g',
    hitPlayer spell i p g = Ok p' g'
    /\ spliced i (activeSpells g) (activeSpells g')
    /\ heightMap g' = heightMap g.
Proof.
  unfold hitPlayer.
  destruct (negb (String.eqb (id p) (spell_owner spell)));
    [|exists p, g; repeat split; try apply incl_refl; auto].
  destruct (Vector3.distanceToLt (position p) (spell_position spell) (Fin 3));
    [|exists p, g; repeat split; try apply incl_refl; auto].
  destruct (isLocal p) eqn:El;
    (eexists; eexists; split;
     [unfold bind, emit, modify; cbn [isLocal set_health]; rewrite El;
      reflexivity|]);
    (split; [apply spliced_splice1|reflexivity]).
Qed.

Lemma forEachPlayer_spliced spell i ps : forall g,
  exists ps' g',
    forEachPlayer (hitPlayer spell i) ps g = Ok ps' g'
    /\ spliced i (activeSpells g) (activeSpells g')
    /\ heightMap g' = heightMap g.
Proof.
  induction ps as [|[key p] rest IH]; intro g.
  - exists [], g. split; [reflexivity|]. split; [apply spliced_refl|reflexivity].
  - destruct (hitPlayer_spliced spell i p g) as [p' [g1 [H1 [S1 M1]]]].
    destruct (IH g1) as [rest' [g2 [H2 [S2 M2]]]].
    exists ((key, p') :: rest'), g2. split.
    + simpl. unfold bind at 1. rewrite H1.
      unfold bind at 1. rewrite H2. reflexivity.
    + split; [eapply spliced_trans; eassumption|congruence].
Qed.

(** One iteration over a projectile that stays over the map: it returns,
    the entries below [i] are untouched, and what is left from [i] on is
    taken from the advanced projectile and the entries above it. *)
Lemma updateProjectile_completes delta i g spell0 :
  gridOk (heightMap g) ->
  nth_error (activeSpells g) i = Some spell0 ->
  overMap (advance spell0 delta) ->
  exists g',
    updateProjectile delta i g = Ok tt g'
    /\ heightMap g' = heightMap g
    /\ firstn i (activeSpells g') = firstn i (activeSpells g)
    /\ incl (skipn i (activeSpells g'))
            (advance spell0 delta :: skipn (S i) (activeSpells g))
    /\ (List.length (activeSpells g') <= List.length (activeSpells g))%nat
    /\ (i <= List.length (activeSpells g'))%nat.
Proof.
  intros Hok Hnth [x [z [Hx [Hz [Bx Bz]]]]].
  assert (Hi : (i < List.length (activeSpells g))%nat)
    by (apply nth_error_Some; congruence).
  unfold updateProjectile.
  unfold bind at 1, gets at 1.
  unfold bind at 1. rewrite Hnth. simpl deref. unfold ret at 1.
  unfold bind at 1, modify at 1.
  set (spell := advance spell0 delta) in *.
  set (g1 := set_activeSpells g (arraySet (activeSpells g) i spell)).
  destruct (TerrainBounds.getTerrainHeight_inside x z g1 Hok Bx Bz)
    as [h Hh].
  unfold bind at 1. rewrite Hx, Hz, Hh.
  destruct ((Vector3.y (spell_position spell) <? Fin h)
            || (spell_life spell <=? Fin 0))%js.
  - (* removed by terrain or expiry *)
    destruct (Vector3.y (spell_position spell) <? Fin h)%js;
      (eexists; split; [unfold bind, emit, modify; reflexivity|]);
      simpl; rewrite ProjectileFacts.splice1_arraySet;
      (split; [reflexivity|]);
      (split; [apply firstn_splice1|]);
      (split; [rewrite skipn_splice1; apply incl_tl; apply incl_refl|]);
      (split; [apply length_splice1_le|apply length_splice1_ge; lia]).
  - (* the players are visited *)
    unfold playersForEach, bind at 1, gets at 1.
    destruct (forEachPlayer_spliced spell i (players g1) g1)
      as [ps' [g2 [Hrun [[S1 [S2 [S3 S4]]] Hm]]]].
    unfold bind. rewrite Hrun. eexists. split; [reflexivity|].
    simpl. unfold g1 in S1, S2, S3, S4. simpl in S1, S2, S3, S4.
    rewrite firstn_arraySet in S1.
    rewrite (skipn_arraySet _ _ _ _ Hnth) in S2.
    rewrite length_arraySet in S3, S4.
    split; [exact Hm|]. split; [exact S1|]. split; [exact S2|].
    split; [exact S3|apply S4; lia].
Qed.

Lemma updateProjectiles_completes delta n : forall g,
  gridOk (heightMap g) ->
  (n <= List.length (activeSpells g))%nat ->
  Forall (fun s => overMap (advance s delta)) (firstn n (activeSpells g)) ->
  exists g',
    updateProjectiles delta n g = Ok tt g'
    /\ heightMap g' = heightMap g
    /\ incl (activeSpells g')
            (map (fun s => advance s delta) (firstn n (activeSpells g))
             ++ skipn n (activeSpells g))
    /\ (List.length (activeSpells g') <= List.length (activeSpells g))%nat.
Proof.
  induction n as [|i IH]; intros g Hok Hn Hover.
  - exists g. simpl. repeat split; auto. apply incl_refl.
  - destruct (nth_error (activeSpells g) i) as [spell0|] eqn:Hnth;
      [|apply nth_error_None in Hnth; lia].
    assert (Hsplit : firstn (S i) (activeSpells g)
                     = firstn i (activeSpells g) ++ [spell0]).
    { clear - Hnth. revert i Hnth.
      induction (activeSpells g) as [|a l IHl]; intros [|i] H; simpl in *;
        try discriminate.
      - injection H as ->. reflexivity.
      - rewrite (IHl i H). reflexivity. }
    rewrite Hsplit in Hover. apply Forall_app in Hover.
    destruct Hover as [Hbelow Hthis]. inversion Hthis as [|? ? Hs0 _]; subst.
    destruct (updateProjectile_completes delta i g spell0 Hok Hnth Hs0)
      as [g1 [Hrun [Hm [Hfirst [Hskip [Hlen Hge]]]]]].
    destruct (IH g1) as [g2 [Hrun2 [Hm2 [Hincl Hlen2]]]].
    + rewrite Hm. exact Hok.
    + exact Hge.
    + rewrite Hfirst. exact Hbelow.
    + exists g2. split.
      * simpl. unfold bind. rewrite Hrun. exact Hrun2.
      * split; [congruence|]. split; [|lia].
        intros s Hs. apply Hincl in Hs. apply in_app_or in Hs.
        rewrite Hsplit, map_app. rewrite <- app_assoc.
        apply in_or_app. destruct Hs as [Hs|Hs].
        -- left. rewrite Hfirst in Hs. exact Hs.
        -- right. apply Hskip in Hs. exact Hs.
Qed.

Lemma updateShield_returns delta g :
  exists g',
    updateShield delta g = Ok tt g'
    /\ activeSpells g' = activeSpells g
    /\ heightMap g' = heightMap g.
Proof.
  unfold updateShield, bind at 1, getLocalPlayer, gets.
  destruct (match localPlayer g with
            | Some key => mapGet (players g) key
            | None => None
            end) as [p|]; [|exists g; auto].
  destruct (shield p) as [sh|]; [|exists g; auto].
  unfold bind, modifyPlayer, modify, emit.
  destruct (shield_duration sh - delta <=? Fin 0)%js;
    eexists; (split; [reflexivity|split; reflexivity]).
Qed.

Lemma updateSpells_returns (delta : num) (g : Game) :
  gridOk (heightMap g) ->
  Forall (fun s => overMap (advance s delta)) (activeSpells g) ->
  exists g',
    updateSpells delta g = Ok tt g'
    /\ heightMap g' = heightMap g
    /\ incl (activeSpells g')
            (map (fun s => advance s delta) (activeSpells g))
    /\ (List.length (activeSpells g') <= List.length (activeSpells g))%nat.
Proof.
  intros Hok Hover.
  unfold updateSpells.
  unfold bind at 1, gets at 1.
  set (g0 := if (spellCooldown g >? Fin 0)%js
             then set_spellCooldown g (spellCooldown g - delta)%js
             else g).
  assert (E0 : forall k : unit -> M unit,
    bind (if (spellCooldown g >? Fin 0)%js
          then modify (fun s => set_spellCooldown s (spellCooldown g - delta)%js)
          else ret tt) k g = k tt g0).
  { intro k. unfold g0. destruct (spellCooldown g >? Fin 0)%js; reflexivity. }
  rewrite E0.
  assert (Hsp0 : activeSpells g0 = activeSpells g)
    by (unfold g0; destruct (spellCooldown g >? Fin 0)%js; reflexivity).
  assert (Hm0 : heightMap g0 = heightMap g)
    by (unfold g0; destruct (spellCooldown g >? Fin 0)%js; reflexivity).
  destruct (updateShield_returns delta g0) as [g1 [Hrun1 [Hsp1 Hm1]]].
  unfold bind at 1. rewrite Hrun1.
  unfold bind at 1, gets at 1.
  destruct (updateProjectiles_completes delta
              (List.length (activeSpells g1)) g1)
    as [g2 [Hrun2 [Hm2 [Hincl Hlen]]]].
  - rewrite Hm1, Hm0. exact Hok.
  - lia.
  - rewrite firstn_all, Hsp1, Hsp0. exact Hover.
  - exists g2. split; [exact Hrun2|].
    split; [rewrite Hm2, Hm1, Hm0; reflexivity|].
    rewrite firstn_all, skipn_all, app_nil_r, Hsp1, Hsp0 in Hincl.
    rewrite Hsp1, Hsp0 in Hlen. split; assumption.
Qed.

End LoopFacts.

(** X6 (updateSpells, the backward loop): over a height map of numbers, a
    frame in which every advanced projectile is over the map returns;
    the loop never reads past the live set, whatever the hits remove, and
    what is left in the live set are projectiles of the frame's start,
    each advanced once, and no more than there were. *)
Theorem updateSpells_completes (delta : num) (g : Game) :
  gridOk (heightMap g) ->
  Forall (fun s => overMap (PlayerSpells.advance s delta)) (activeSpells g) ->
  exists g',
    PlayerSpells.updateSpells delta g = Ok tt g'
    /\ incl (activeSpells g')
            (map (fun s => PlayerSpells.advance s delta) (activeSpells g))
    /\ (List.length (activeSpells g') <= List.length (activeSpells g))%nat.
Proof.
  intros Hok Hover.
  destruct (LoopFacts.updateSpells_returns delta g Hok Hover)
    as [g' [Hrun [_ [Hincl Hlen]]]].
  exists g'. split; [exact Hrun|]. split; assumption.
Qed.

Lemma overMapb_overMap (s : Spell) : overMapb s = true -> overMap s.
Proof.
  unfold overMapb, overMap.
  destruct (Vector3.x (spell_position s)) as [x|]; [|discriminate].
  destruct (Vector3.z (spell_position s)) as [z|]; [|discriminate].
  rewrite !andb_true_iff, !Qle_bool_iff. intros [[[A B] C] D].
  exists x, z. auto.
Qed.

Lemma updateSpells_completes_witness :
  gridOk (heightMap Example.twoInFlight)
  /\ exists g',
      PlayerSpells.updateSpells (Fin 0.1) Example.twoInFlight = Ok tt g'
      /\ (List.length (activeSpells g') <= 2)%nat.
Proof.
  assert (Hmap : heightMap Example.twoInFlight = heightMap Example.world)
    by (vm_compute; reflexivity).
  assert (Hok : gridOk (heightMap Example.twoInFlight))
    by (rewrite Hmap; exact ExampleFacts.world_gridOk).
  split; [exact Hok|].
  destruct (updateSpells_completes (Fin 0.1) Example.twoInFlight Hok)
    as [g' [Hrun [_ Hlen]]].
  - apply Forall_forall. intros s Hs. apply overMapb_overMap.
    assert (Hall : forallb (fun s => overMapb (PlayerSpells.advance s (Fin 0.1)))
                           (activeSpells Example.twoInFlight) = true)
      by (vm_compute; reflexivity).
    rewrite forallb_forall in Hall. apply Hall. exact Hs.
  - exists g'. split; [exact Hrun|].
    replace 2%nat with (List.length (activeSpells Example.twoInFlight))
      by (vm_compute; reflexivity).
    exact Hlen.
Defined.

(** ** Projectiles and their owner *)

Module OwnerFacts.

Import PlayerSpells.

Lemma ownerKept_refl o ps : ownerKept o ps ps.
Proof. induction ps; constructor; auto. Qed.

Lemma ownerKept_trans o ps qs rs :
  ownerKept o ps qs -> ownerKept o qs rs -> ownerKept o ps rs.
Proof.
  intro H. revert rs.
  induction H as [|e e' ps qs [Hk [Hi Hh]] _ IH]; intros rs Hq.
  - inversion Hq. constructor.
  - inversion Hq as [|e1 e'' qs1 rs1 [Hk' [Hi' Hh']] Hrest]; subst.
    constructor; [|apply IH; exact Hrest].
    split; [congruence|]. split; [congruence|].
    intro Ho. rewrite Hh' by congruence. apply Hh. exact Ho.
Qed.

Lemma ownerSpared_refl o g : ownerSpared o g g.
Proof. intro H. split; [exact H|]. split; [apply ownerKept_refl|reflexivity]. Qed.

Lemma ownerSpared_trans o g1 g2 g3 :
  ownerSpared o g1 g2 -> ownerSpared o g2 g3 -> ownerSpared o g1 g3.
Proof.
  intros H12 H23 H1.
  destruct (H12 H1) as [H2 [K12 L12]].
  destruct (H23 H2) as [H3 [K23 L23]].
  split; [exact H3|].
  split; [eapply ownerKept_trans; eassumption|congruence].
Qed.

Lemma ownerSpared_elsewhere o g g' :
  activeSpells g' = activeSpells g ->
  players g' = players g ->
  localPlayer g' = localPlayer g ->
  ownerSpared o g g'.
Proof.
  intros Hs Hp Hl H. rewrite Hs, Hp.
  split; [exact H|]. split; [apply ownerKept_refl|exact Hl].
Qed.

Lemma ownerKept_mapUpdate o ps key (f : Player -> Player) :
  (forall p, id (f p) = id p /\ health (f p) = health p) ->
  ownerKept o ps (mapUpdate ps key f).
Proof.
  intro Hf. induction ps as [|[k p] rest IH]; simpl; [constructor|].
  destruct (String.eqb k key).
  - constructor; [|apply ownerKept_refl].
    destruct (Hf p) as [Hi Hh]. simpl. auto.
  - constructor; [simpl; auto|exact IH].
Qed.

Lemma respects_owner_modifyPlayer o key (f : Player -> Player) :
  (forall p, id (f p) = id p /\ health (f p) = health p) ->
  respects (ownerSpared o) (modifyPlayer key f).
Proof.
  intros Hf g H. unfold modifyPlayer, modify. simpl.
  split; [exact H|]. split; [|reflexivity].
  apply ownerKept_mapUpdate. exact Hf.
Qed.

Lemma Forall_splice1 {A : Type} (P : A -> Prop) (l : list A) (i : nat) :
  Forall P l -> Forall P (splice1 l i).
Proof.
  intro H. revert i. induction H as [|a l Ha Hl IH]; intros [|i]; simpl;
    try constructor; auto.
Qed.

Lemma Forall_arraySet {A : Type} (P : A -> Prop) (l : list A) (i : nat)
      (v : A) :
  P v -> Forall P l -> Forall P (arraySet l i v).
Proof.
  intros Hv H. revert i. induction H as [|a l Ha Hl IH]; intros [|i]; simpl;
    try constructor; auto.
Qed.

Ltac owner_step o :=
  first
    [ apply respects_ret; apply ownerSpared_refl
    | apply respects_throw; apply ownerSpared_refl
    | apply respects_gets; apply ownerSpared_refl
    | apply respects_deref; apply ownerSpared_refl
    | apply respects_getTerrainHeight; apply ownerSpared_refl
    | apply respects_bind; [apply ownerSpared_trans| |intro]
    | apply respects_modify; intro;
      apply ownerSpared_elsewhere; reflexivity
    | apply respects_owner_modifyPlayer; intros []; split; reflexivity
    | match goal with
      | |- respects _ (match ?x with _ => _ end) => destruct x
      | |- respects _ (if ?b then _ else _) => destruct b
      end ].

Lemma respects_owner_updateShield o delta :
  respects (ownerSpared o) (updateShield delta).
Proof.
  unfold updateShield, getLocalPlayer, emit. repeat owner_step o.
Qed.

Lemma respects_owner_splice o i :
  respects (ownerSpared o)
           (modify (fun g => set_activeSpells g (splice1 (activeSpells g) i))).
Proof.
  intros g H. simpl. split; [apply Forall_splice1; exact H|].
  split; [apply ownerKept_refl|reflexivity].
Qed.

(** A projectile of [o] passes over every player with id [o]. *)
Lemma hitPlayer_spares_owner o spell i p g :
  spell_owner spell = o ->
  exists p' g',
    hitPlayer spell i p g = Ok p' g'
    /\ id p' = id p
    /\ (id p = o -> health p' = health p)
    /\ players g' = players g
    /\ ownerSpared o g g'.
Proof.
  intro Ho. unfold hitPlayer.
  destruct (String.eqb (id p) (spell_owner spell)) eqn:E; simpl negb.
  - exists p, g.
    split; [reflexivity|]. split; [reflexivity|]. split; [auto|].
    split; [reflexivity|apply ownerSpared_refl].
  - assert (Hne : id p <> o).
    { intro Hid. rewrite Ho, Hid, String.eqb_refl in E. discriminate. }
    destruct (Vector3.distanceToLt (position p) (spell_position spell) (Fin 3)).
    + destruct (isLocal p) eqn:El;
        (eexists; eexists; split;
         [unfold bind, emit, modify; cbn [isLocal set_health]; rewrite El;
          reflexivity|]);
        (split; [reflexivity|]);
        (split; [intro Hid; contradiction|]);
        (split; [reflexivity|]);
        (intro H; simpl; split; [apply Forall_splice1; exact H|];
         split; [apply ownerKept_refl|reflexivity]).
    + exists p, g.
    split; [reflexivity|]. split; [reflexivity|]. split; [auto|].
    split; [reflexivity|apply ownerSpared_refl].
Qed.

Lemma forEachPlayer_spares_owner o spell i ps :
  spell_owner spell = o ->
  forall g,
  exists ps' g',
    forEachPlayer (hitPlayer spell i) ps g = Ok ps' g'
    /\ ownerKept o ps ps'
    /\ players g' = players g
    /\ ownerSpared o g g'.
Proof.
  intro Ho. induction ps as [|[key p] rest IH]; intro g.
  - exists [], g. split; [reflexivity|]. split; [constructor|].
    split; [reflexivity|apply ownerSpared_refl].
  - destruct (hitPlayer_spares_owner o spell i p g Ho)
      as [p' [g1 [H1 [Hi [Hh [Hp1 Hs1]]]]]].
    destruct (IH g1) as [rest' [g2 [H2 [Hk [Hp2 Hs2]]]]].
    exists ((key, p') :: rest'), g2. split.
    + simpl. unfold bind at 1. rewrite H1.
      unfold bind at 1. rewrite H2. reflexivity.
    + split; [constructor; [simpl; auto|exact Hk]|].
      split; [congruence|eapply ownerSpared_trans; eassumption].
Qed.

Lemma respects_owner_playersForEach o spell i :
  spell_owner spell = o ->
  respects (ownerSpared o) (playersForEach (hitPlayer spell i)).
Proof.
  intros Ho g. unfold playersForEach, bind at 1, gets at 1.
  destruct (forEachPlayer_spares_owner o spell i (players g) Ho g)
    as [ps' [g' [Hrun [Hk [Hpl Hs]]]]].
  unfold bind. rewrite Hrun. simpl. intro H.
  destruct (Hs H) as [H' [_ Hl]].
  split; [exact H'|]. split; [exact Hk|exact Hl].
Qed.

Lemma respects_owner_updateProjectile o delta i :
  respects (ownerSpared o) (updateProjectile delta i).
Proof.
  intro g. unfold updateProjectile.
  unfold bind at 1, gets at 1. unfold bind at 1.
  destruct (nth_error (activeSpells g) i) as [spell0|] eqn:Hnth;
    [|apply ownerSpared_refl].
  simpl deref. unfold ret at 1.
  set (spell := advance spell0 delta).
  match goal with
  | |- ownerSpared o g (finalState (?c g)) => set (tail := c)
  end.
  intro H.
  assert (Ho : spell_owner spell = o).
  { rewrite Forall_forall in H. apply (H spell0).
    eapply nth_error_In. exact Hnth. }
  assert (Hc : respects (ownerSpared o) tail).
  { unfold tail.
    apply respects_bind; [apply ownerSpared_trans| |intro].
    - intros s Hs. simpl. split; [|split; [apply ownerKept_refl|reflexivity]].
      apply Forall_arraySet; assumption.
    - unfold emit.
      repeat first [ apply (respects_owner_playersForEach o spell i Ho)
                   | apply respects_owner_splice
                   | owner_step o ]. }
  apply (Hc g H).
Qed.

Lemma respects_owner_updateProjectiles o delta n :
  respects (ownerSpared o) (updateProjectiles delta n).
Proof.
  induction n as [|i IH]; simpl.
  - apply respects_ret. apply ownerSpared_refl.
  - apply respects_bind;
      [apply ownerSpared_trans
      |apply respects_owner_updateProjectile|intro; exact IH].
Qed.

Lemma respects_owner_updateSpells o delta :
  respects (ownerSpared o) (updateSpells delta).
Proof.
  unfold updateSpells.
  repeat first [ apply respects_owner_updateShield
               | apply respects_owner_updateProjectiles
               | owner_step o ].
Qed.

Lemma ownerKept_mapGet o ps ps' key p :
  ownerKept o ps ps' ->
  mapGet ps key = Some p ->
  exists p',
    mapGet ps' key = Some p'
    /\ id p' = id p
    /\ (id p = o -> health p' = health p).
Proof.
  intro H. induction H as [|[k q] [k' q'] ps ps' [Hk [Hi Hh]] _ IH];
    simpl; [discriminate|].
  simpl in Hk, Hi, Hh. subst k'.
  destruct (String.eqb k key).
  - intro E. injection E as <-. exists q'. auto.
  - exact IH.
Qed.

End OwnerFacts.

Module SparedFacts.

Import PlayerSpells OwnerFacts.

Lemma localUnharmed_step o h g g' :
  localUnharmed o h g -> ownerSpared o g g' -> localUnharmed o h g'.
Proof.
  intros [Hown [p [Hp [Hid Hh]]]] Hs.
  destruct (Hs Hown) as [Hown' [Hk Hl]].
  split; [exact Hown'|].
  unfold localOf in *. rewrite Hl.
  destruct (localPlayer g) as [key|]; [|discriminate].
  destruct (ownerKept_mapGet o _ _ key p Hk Hp) as [p' [Hp' [Hid' Hh']]].
  exists p'. split; [exact Hp'|]. split; [congruence|].
  rewrite Hh' by exact Hid. exact Hh.
Qed.

Lemma respects_owner_selectSpell o index :
  respects (ownerSpared o) (selectSpell index).
Proof.
  unfold selectSpell, getLocalPlayer, emit. repeat owner_step o.
Qed.

Lemma respects_owner_createShieldEffect o :
  respects (ownerSpared o) createShieldEffect.
Proof.
  unfold createShieldEffect, getLocalPlayer, emit. repeat owner_step o.
Qed.

Section Casting.

Variable applyEuler : Vector3.t -> Euler.t -> Vector3.t.

(** A cast by a local player with id [o] adds at most a projectile of
    [o]. *)
Lemma castSpell_ownerSpared o g p :
  localOf g = Some p -> id p = o ->
  ownerSpared o g (finalState (castSpell applyEuler g)).
Proof.
  intros Hp Hid. unfold castSpell, bind at 1, getLocalPlayer, gets.
  fold (localOf g). rewrite Hp. unfold bind at 1.
  destruct (spellCooldown g >? Fin 0)%js; [apply ownerSpared_refl|].
  unfold bind at 1.
  destruct (arrayGet spellTypes (currentSpell p)) as [spellType|];
    [|apply ownerSpared_refl].
  simpl deref. unfold ret at 1.
  unfold bind at 1, modify at 1.
  eapply ownerSpared_trans;
    [apply (ownerSpared_elsewhere o g
              (set_spellCooldown g (st_cooldown spellType)));
     reflexivity|].
  destruct (String.eqb (st_name spellType) "Shield").
  - apply respects_owner_createShieldEffect.
  - intro H. simpl. split; [|split; [apply ownerKept_refl|reflexivity]].
    apply Forall_app. split; [exact H|].
    constructor; [exact Hid|constructor].
Qed.

Lemma act_localUnharmed o h a g :
  localUnharmed o h g -> localUnharmed o h (finalState (act applyEuler a g)).
Proof.
  intro H. apply (localUnharmed_step o h g); [exact H|].
  destruct a as [index|delta|]; simpl.
  - apply respects_owner_selectSpell.
  - apply respects_owner_updateSpells.
  - destruct H as [_ [p [Hp [Hid _]]]].
    apply (castSpell_ownerSpared o g p Hp Hid).
Qed.

End Casting.

End SparedFacts.

(** X7 (castSpell / updateSpells, the owner is spared): when every live
    projectile belongs to the local player, then after any sequence of
    slot selections, frames and cast requests every live projectile
    still does, and the local player has exactly the health it had: its
    own spells never hurt it. *)
Theorem local_player_spared
        (applyEuler : Vector3.t -> Euler.t -> Vector3.t)
        (actions : list Action) (o : string) (h : num) (g : Game) :
  localUnharmed o h g ->
  localUnharmed o h (perform applyEuler actions g).
Proof.
  revert g. induction actions as [|a rest IH]; intros g H.
  - exact H.
  - simpl. apply IH. apply SparedFacts.act_localUnharmed. exact H.
Qed.

Lemma local_player_spared_witness :
  let actions := [Cast; Tick 0.5; Cast; Select (Fin 1); Tick 0.1] in
  localUnharmed "player_1" (Fin 100) Example.crowded
  /\ localUnharmed "player_1" (Fin 100)
       (perform Example.facingZ actions Example.crowded).
Proof.
  intro actions.
  assert (H : localUnharmed "player_1" (Fin 100) Example.crowded).
  { split.
    - replace (activeSpells Example.crowded) with (@nil Spell)
        by (vm_compute; reflexivity).
      constructor.
    - eexists. split; [vm_compute; reflexivity|].
      split; reflexivity. }
  split; [exact H|].
  apply (local_player_spared Example.facingZ actions "player_1" (Fin 100)
           Example.crowded H).
Defined.

(** ** The cooldown runs out *)

Module ReopenFacts.

Import PlayerSpells.



Section Waiting.

Variable applyEuler : Vector3.t -> Euler.t -> Vector3.t.



End Waiting.

End ReopenFacts.



(** ** The shield *)

Module ShieldFacts.

Import PlayerSpells.

Lemma hitPlayer_health_only spell i p g :
  exists p' g',
    hitPlayer spell i p g = Ok p' g'
    /\ set_health p' (Fin 0) = set_health p (Fin 0)
    /\ players g' = players g
    /\ localPlayer g' = localPlayer g.
Proof.
  unfold hitPlayer.
  destruct (negb (String.eqb (id p) (spell_owner spell)));
    [|exists p, g; auto].
  destruct (Vector3.distanceToLt (position p) (spell_position spell) (Fin 3));
    [|exists p, g; auto].
  destruct (isLocal p) eqn:El;
    (eexists; eexists; split;
     [unfold bind, emit, modify; cbn [isLocal set_health]; rewrite El;
      reflexivity|]);
    (split; [destruct p; reflexivity|split; reflexivity]).
Qed.

Lemma forEachPlayer_health_only spell i ps : forall g,
  exists ps' g',
    forEachPlayer (hitPlayer spell i) ps g = Ok ps' g'
    /\ map (fun e => (fst e, set_health (snd e) (Fin 0))) ps'
       = map (fun e => (fst e, set_health (snd e) (Fin 0))) ps
    /\ players g' = players g
    /\ localPlayer g' = localPlayer g.
Proof.
  induction ps as [|[key p] rest IH]; intro g.
  - exists [], g. auto.
  - destruct (hitPlayer_health_only spell i p g) as [p' [g1 [H1 [Hp [Hpl1 Hl1]]]]].
    destruct (IH g1) as [rest' [g2 [H2 [Hk [Hpl2 Hl2]]]]].
    exists ((key, p') :: rest'), g2. split.
    + simpl. unfold bind at 1. rewrite H1.
      unfold bind at 1. rewrite H2. reflexivity.
    + split; [simpl; rewrite Hp, Hk; reflexivity|].
      split; congruence.
Qed.

Lemma keeps_beyondHealth_playersForEach spell i :
  keeps beyondHealth (playersForEach (hitPlayer spell i)).
Proof.
  intro g. unfold playersForEach, bind at 1, gets at 1.
  destruct (forEachPlayer_health_only spell i (players g) g)
    as [ps' [g' [Hrun [Hk [Hpl Hl]]]]].
  unfold bind. rewrite Hrun. simpl.
  unfold beyondHealth, healthErased. simpl. rewrite Hk, Hl. reflexivity.
Qed.

Lemma keeps_beyondHealth_updateProjectiles delta n :
  keeps beyondHealth (updateProjectiles delta n).
Proof.
  induction n as [|i IH]; simpl.
  - apply keeps_ret.
  - apply keeps_bind; [|intro; exact IH].
    unfold updateProjectile, emit.
    repeat first [ apply keeps_beyondHealth_playersForEach | keeps_step ].
Qed.

Lemma healthErased_mapGet (ps ps' : list (string * Player)) key p :
  map (fun e => (fst e, set_health (snd e) (Fin 0))) ps'
  = map (fun e => (fst e, set_health (snd e) (Fin 0))) ps ->
  mapGet ps key = Some p ->
  exists p',
    mapGet ps' key = Some p' /\ set_health p' (Fin 0) = set_health p (Fin 0).
Proof.
  revert ps'. induction ps as [|[k q] rest IH]; intros [|[k' q'] rest'] E;
    simpl in *; try discriminate.
  pose proof (f_equal (fun l => fst (hd (k, q) l)) E) as Ek.
  pose proof (f_equal (fun l => snd (hd (k, q) l)) E) as Eq.
  pose proof (f_equal (@tl _) E) as Erest.
  simpl in Ek, Eq, Erest. subst k'.
  destruct (String.eqb k key).
  - intro Hq. injection Hq as <-. exists q'. auto.
  - apply IH. exact Erest.
Qed.

(** A frame and the local player's shield. *)
Lemma updateSpells_shield (delta : num) (g : Game) (p : Player) :
  localOf g = Some p ->
  localPlayer g = Some (id p) ->
  exists p',
    localOf (finalState (updateSpells delta g)) = Some p'
    /\ localPlayer (finalState (updateSpells delta g)) = Some (id p')
    /\ id p' = id p
    /\ currentSpell p' = currentSpell p
    /\ shield p' = shieldAfter delta (shield p).
Proof.
  intros Hp Hkey.
  assert (Hget : mapGet (players g) (id p) = Some p).
  { unfold localOf in Hp. rewrite Hkey in Hp. exact Hp. }
  set (g0 := if (spellCooldown g >? Fin 0)%js
             then set_spellCooldown g (spellCooldown g - delta)%js
             else g).
  assert (E0 : forall k : unit -> M unit,
    bind (if (spellCooldown g >? Fin 0)%js
          then modify (fun s => set_spellCooldown s (spellCooldown g - delta)%js)
          else ret tt) k g = k tt g0).
  { intro k. unfold g0. destruct (spellCooldown g >? Fin 0)%js; reflexivity. }
  assert (Hpl0 : players g0 = players g)
    by (unfold g0; destruct (spellCooldown g >? Fin 0)%js; reflexivity).
  assert (Hl0 : localPlayer g0 = localPlayer g)
    by (unfold g0; destruct (spellCooldown g >? Fin 0)%js; reflexivity).
  (* the shield step *)
  assert (Hshield : exists g1 p1,
    updateShield delta g0 = Ok tt g1
    /\ mapGet (players g1) (id p) = Some p1
    /\ localPlayer g1 = Some (id p)
    /\ id p1 = id p
    /\ currentSpell p1 = currentSpell p
    /\ shield p1 = shieldAfter delta (shield p)).
  { unfold updateShield, bind at 1, getLocalPlayer, gets.
    rewrite Hl0, Hkey, Hpl0, Hget.
    unfold shieldAfter.
    destruct (shield p) as [sh|] eqn:Esh.
    - unfold bind at 1, modifyPlayer at 1, modify at 1.
      destruct (shield_duration sh - delta <=? Fin 0)%js.
      + unfold bind, emit, modifyPlayer, modify. simpl.
        eexists. eexists. split; [reflexivity|].
        simpl. rewrite Hpl0, !BoundFacts.mapGet_mapUpdate, Hget. simpl.
        split; [reflexivity|]. split; [congruence|].
        repeat split.
      + unfold ret. eexists. eexists. split; [reflexivity|].
        simpl. rewrite Hpl0, !BoundFacts.mapGet_mapUpdate, Hget. simpl.
        split; [reflexivity|]. split; [congruence|].
        repeat split.
    - exists g0, p. split; [reflexivity|].
      rewrite Hpl0, Hl0. auto. }
  destruct Hshield as [g1 [p1 [Hrun1 [Hget1 [Hl1 [Hid1 [Hcs1 Hsh1]]]]]]].
  assert (Hfinal :
    finalState (updateSpells delta g)
    = finalState ((n <- gets (fun s => List.length (activeSpells s)) ;;
                   updateProjectiles delta n) g1)).
  { unfold updateSpells. unfold bind at 1, gets at 1. rewrite E0.
    unfold bind at 1. rewrite Hrun1. reflexivity. }
  rewrite Hfinal. clear Hfinal.
  assert (K : beyondHealth
                (finalState
                   ((n <- gets (fun s => List.length (activeSpells s)) ;;
                     updateProjectiles delta n) g1))
              = beyondHealth g1).
  { apply keeps_bind; [apply keeps_gets|]. intro n.
    apply keeps_beyondHealth_updateProjectiles. }
  set (g2 := finalState
               ((n <- gets (fun s => List.length (activeSpells s)) ;;
                 updateProjectiles delta n) g1)) in *.
  unfold beyondHealth in K. injection K as Kl Kp.
  destruct (healthErased_mapGet (players g1) (players g2) (id p) p1 Kp Hget1)
    as [p2 [Hget2 Hsame]].
  exists p2.
  assert (Hid2 : id p2 = id p1)
    by (apply (f_equal id) in Hsame; destruct p2, p1; exact Hsame).
  assert (Hcs2 : currentSpell p2 = currentSpell p1)
    by (apply (f_equal currentSpell) in Hsame; destruct p2, p1; exact Hsame).
  assert (Hsh2 : shield p2 = shield p1)
    by (apply (f_equal shield) in Hsame; destruct p2, p1; exact Hsame).
  unfold localOf. rewrite Kl, Hl1.
  split; [exact Hget2|]. split; [congruence|].
  split; [congruence|]. split; congruence.
Qed.

End ShieldFacts.

Module ExpiryFacts.

Import PlayerSpells ShieldFacts.

Section Frames.

Variable applyEuler : Vector3.t -> Euler.t -> Vector3.t.



End Frames.

End ExpiryFacts.



(** ** The end of a world transition *)

Module RegenerationFacts.

Import WorldSystem PlayerSystem.

Lemma modify_bind {B : Type} (h : Game -> Game) (k : unit -> M B) (g : Game) :
  bind (modify h) k g = k tt (h g).
Proof. reflexivity. Qed.

Lemma gets_bind {A B : Type} (f : Game -> A) (k : A -> M B) (g : Game) :
  bind (gets f) k g = k (f g) g.
Proof. reflexivity. Qed.

Lemma mapGet_mapUpdate_other (m : list (string * Player)) (k key : string)
      (f : Player -> Player) :
  key <> k -> mapGet (mapUpdate m k f) key = mapGet m key.
Proof.
  intro Hne. induction m as [|[k0 p0] rest IH]; simpl; [reflexivity|].
  destruct (String.eqb k0 k) eqn:E; simpl.
  - apply String.eqb_eq in E. subst k0.
    destruct (String.eqb k key) eqn:E'; [|reflexivity].
    apply String.eqb_eq in E'. congruence.
  - destruct (String.eqb k0 key); [reflexivity|exact IH].
Qed.

Lemma createTerrainCollision_run noise (g : Game) :
  createTerrainCollision noise g = Ok tt (generated noise g).
Proof. reflexivity. Qed.

Section Regeneration.

Variable noise : num -> num -> num.
Variable random : nat -> Q.

Lemma keeps_createManaNodesLoop {X : Type} (f : Game -> X) (n : nat) :
  (forall g v, f (set_randomCalls g v) = f g) ->
  (forall g v, f (set_manaNodes g v) = f g) ->
  keeps f (createManaNodesLoop random n).
Proof.
  intros Hr Hm. induction n as [|k IH]; simpl.
  - apply keeps_ret.
  - unfold Math_random.
    repeat first [ exact IH
                 | apply keeps_modify; intro; first [apply Hr | apply Hm]
                 | keeps_step ].
Qed.

Hypothesis Hnoise : unitNoise noise.
Hypothesis Hrandom : unitRandom random.

Lemma runCallback_regenerates (g : Game) (p : Player) :
  localOf g = Some p ->
  localPlayer g = Some (id p) ->
  exists g',
    runCallback noise random RegenerateWorld g = Ok tt g'
    /\ seed g' = Fin (random (randomCalls g) * 1000)
    /\ cellsWithin (-52.5) 52.5 (heightMap g')
    /\ List.length (manaNodes g') = 20%nat
    /\ Forall (freshNode g') (manaNodes g')
    /\ players g'
       = mapUpdate
           (mapUpdate (players g) (id p)
              (fun q => set_position q (Vector3.mk (Fin 0) (Fin 50) (Fin 0))))
           (id p)
           (fun q => set_velocity q (Vector3.mk (Fin 0) (Fin 0) (Fin 0)))
    /\ randomCalls g' = (randomCalls g + 61)%nat
    /\ trace g' = trace g ++ [SceneAddTerrain]
    /\ besideWorld g' = besideWorld g.
Proof.
  intros Hp Hkey.
  assert (Hget : mapGet (players g) (id p) = Some p).
  { unfold localOf in Hp. rewrite Hkey in Hp. exact Hp. }
  set (s := (random (randomCalls g) * 1000)%Q).
  set (g1 := set_seed (set_randomCalls g (S (randomCalls g))) (Fin s)).
  set (g2 := set_trace g1 (trace g1 ++ [SceneAddTerrain])).
  set (g3 := generated noise (generated noise g2)).
  assert (Hcells : cellsWithin (-52.5) 52.5 (heightMap g3)).
  { apply (Generation.generated_cellsWithin noise _ s); [reflexivity|exact Hnoise]. }
  destruct (Placement.createManaNodesLoop_places random Hrandom 20
              (set_manaNodes g3 [])
              (Interpolation.cellsWithin_gridOk _ _ _ Hcells))
    as [g5 [placed [Hrun [Hnodes [Hlen [Hfresh [Hcalls [Hmap [Hpl [Hlp
          [Hsp Htr]]]]]]]]]]].
  simpl in Hnodes.
  assert (Hbeside : besideWorld g5 = besideWorld g).
  { pose proof (keeps_createManaNodesLoop besideWorld 20
                  (fun _ _ => eq_refl) (fun _ _ => eq_refl)
                  (set_manaNodes g3 [])) as K.
    rewrite Hrun in K. exact K. }
  assert (Hget5 : mapGet (players g5) (id p) = Some p).
  { rewrite Hpl. exact Hget. }
  exists (set_players
            (set_players g5
               (mapUpdate (players g5) (id p)
                  (fun q => set_position q
                              (Vector3.mk (Fin 0) (Fin 50) (Fin 0)))))
            (mapUpdate
               (mapUpdate (players g5) (id p)
                  (fun q => set_position q
                              (Vector3.mk (Fin 0) (Fin 50) (Fin 0))))
               (id p)
               (fun q => set_velocity q (Vector3.mk (Fin 0) (Fin 0) (Fin 0))))).
  split.
  - unfold runCallback, Math_random.
    rewrite AltitudeFacts.bind_assoc, gets_bind.
    rewrite AltitudeFacts.bind_assoc, modify_bind.
    rewrite AltitudeFacts.ret_bind, modify_bind.
    unfold createTerrain, emit.
    rewrite AltitudeFacts.bind_assoc, modify_bind.
    fold s. fold g1. fold g2.
    rewrite (bind_Ok _ _ _ _ _ (createTerrainCollision_run noise g2)).
    rewrite (bind_Ok _ _ _ _ _
               (createTerrainCollision_run noise (generated noise g2))).
    fold g3. unfold createManaNodes.
    rewrite AltitudeFacts.bind_assoc, modify_bind.
    rewrite (bind_Ok _ _ _ _ _ Hrun).
    unfold getLocalPlayer. rewrite gets_bind, Hlp.
    change (localPlayer (set_manaNodes g3 [])) with (localPlayer g).
    rewrite Hkey, Hget5. reflexivity.
  - split; [transitivity (seed g5); [reflexivity|]|].
    { pose proof (keeps_createManaNodesLoop seed 20
                    (fun _ _ => eq_refl) (fun _ _ => eq_refl)
                    (set_manaNodes g3 [])) as K.
      rewrite Hrun in K. exact K. }
    split; [simpl; rewrite Hmap; exact Hcells|].
    split; [simpl; rewrite Hnodes; exact Hlen|].
    split.
    { simpl manaNodes. rewrite Hnodes.
      eapply Forall_impl; [|exact Hfresh]. intros a Ha.
      apply (Placement.freshNode_same_heightMap (set_manaNodes g3 []) _ a);
        [simpl; symmetry; exact Hmap|exact Ha]. }
    split; [simpl; rewrite Hpl; reflexivity|].
    split; [simpl; rewrite Hcalls; simpl; lia|].
    split; [simpl; rewrite Htr; reflexivity|].
    exact Hbeside.
Qed.

End Regeneration.

End RegenerationFacts.

(** X10 (updateTransition / worldTransitionComplete, the frame that ends a
    transition): for a noise with values in [-1, 1], random numbers from
    [0, 1) and a local player, the frame that brings alpha to 2 or more
    never throws; it ends the transition and clears the callback, draws
    the new seed from the next random number, rebuilds a height map of
    101 by 101 numbers within 52.5 of zero, places exactly 20 fresh mana
    nodes over it, and puts the local player at rest at (0, 50, 0).  The
    other players, the projectiles in flight and the cooldown are as
    before. *)
Theorem transition_end_regenerates
        (noise : num -> num -> num) (random : nat -> Q)
        (delta : num) (g : Game) (p : Player) :
  unitNoise noise ->
  unitRandom random ->
  localOf g = Some p ->
  localPlayer g = Some (id p) ->
  worldTransitionComplete g = Some RegenerateWorld ->
  ((transitionAlpha g + delta * Fin 0.5) >=? Fin 2)%js = true ->
  exists g',
    PlayerSystem.updateTransition noise random delta g = Ok tt g'
    /\ isTransitioning g' = false
    /\ transitionAlpha g' = Fin 0
    /\ worldTransitionComplete g' = None
    /\ seed g' = Fin (random (randomCalls g) * 1000)
    /\ cellsWithin (-52.5) 52.5 (heightMap g')
    /\ List.length (manaNodes g') = 20%nat
    /\ Forall (freshNode g') (manaNodes g')
    /\ localOf g' = Some (recentred p)
    /\ (forall key, key <> id p ->
                    mapGet (players g') key = mapGet (players g) key)
    /\ activeSpells g' = activeSpells g
    /\ spellCooldown g' = spellCooldown g.
Proof.
  intros Hnoise Hrandom Hp Hkey Hcb Halpha.
  assert (Hget : mapGet (players g) (id p) = Some p).
  { unfold localOf in Hp. rewrite Hkey in Hp. exact Hp. }
  rewrite (TransitionFacts.updateTransition_complete noise random delta g
             Halpha Hcb).
  match goal with
  | |- exists g', (_ ;; _) ?g0 = _ /\ _ => set (start := g0)
  end.
  destruct (RegenerationFacts.runCallback_regenerates noise random
              Hnoise Hrandom start p Hp Hkey)
    as [g1 [Hrun [Hseed [Hcells [Hlen [Hfresh [Hpl [_ [_ Hbeside]]]]]]]]].
  exists (set_worldTransitionComplete g1 None).
  assert (Htr : isTransitioning g1 = false)
    by exact (f_equal (fun t => fst (fst (fst (fst (fst t))))) Hbeside).
  assert (Hal : transitionAlpha g1 = Fin 0)
    by exact (f_equal (fun t => snd (fst (fst (fst (fst t))))) Hbeside).
  assert (Hcd : spellCooldown g1 = spellCooldown g)
    by exact (f_equal (fun t => snd (fst (fst t))) Hbeside).
  assert (Hsp : activeSpells g1 = activeSpells g)
    by exact (f_equal (fun t => snd (fst t)) Hbeside).
  assert (Hlp : localPlayer g1 = localPlayer g)
    by exact (f_equal snd Hbeside).
  split; [rewrite (bind_Ok _ _ _ _ _ Hrun); reflexivity|].
  split; [exact Htr|]. split; [exact Hal|]. split; [reflexivity|].
  split; [exact Hseed|]. split; [exact Hcells|]. split; [exact Hlen|].
  split.
  { eapply Forall_impl; [|exact Hfresh]. intros a Ha.
    apply (Placement.freshNode_same_heightMap
             g1 (set_worldTransitionComplete g1 None) a eq_refl Ha). }
  split.
  { unfold localOf. simpl. rewrite Hlp. simpl. rewrite Hkey, Hpl.
    rewrite !BoundFacts.mapGet_mapUpdate. simpl. rewrite Hget. reflexivity. }
  split.
  { intros key Hne. simpl. rewrite Hpl.
    rewrite !RegenerationFacts.mapGet_mapUpdate_other by exact Hne.
    reflexivity. }
  split; [exact Hsp|exact Hcd].
Qed.

Lemma transition_end_regenerates_witness :
  exists g',
    PlayerSystem.updateTransition Example.flatNoise Example.half (Fin 2)
                                  Crossing.midpoint = Ok tt g'
    /\ isTransitioning g' = false
    /\ List.length (manaNodes g') = 20%nat
    /\ option_map position (localOf g')
       = Some (Vector3.mk (Fin 0) (Fin 50) (Fin 0))
    /\ mapGet (players g') "player_ai_1"%string
       = mapGet (players Crossing.midpoint) "player_ai_1"%string.
Proof.
  assert (Hhalf : unitRandom Example.half).
  { intro n. split; vm_compute; [discriminate|reflexivity]. }
  assert (Hp : localOf Crossing.midpoint
               = Some (set_position Example.carpet
                         (Vector3.mk (Fin 460) (Fin 50) (Fin 0))))
    by (vm_compute; reflexivity).
  destruct (transition_end_regenerates Example.flatNoise Example.half (Fin 2)
              Crossing.midpoint _ ExampleFacts.flatNoise_unit Hhalf Hp)
    as [g' [Hrun [Htr [_ [_ [_ [_ [Hlen [_ [Hlocal [Hothers _]]]]]]]]]]];
    try (vm_compute; reflexivity).
  exists g'. split; [exact Hrun|]. split; [exact Htr|].
  split; [exact Hlen|]. split; [rewrite Hlocal; reflexivity|].
  apply Hothers. vm_compute. discriminate.
Defined.

(** ** A transition under way *)

Module FrozenFacts.

Import PlayerSystem.

Section Frames.

Variable noise : num -> num -> num.
Variable random : nat -> Q.
Variable handleInput : num -> M unit.
Variable updatePhysics : num -> M unit.
Variable updateModels : M unit.



End Frames.

End FrozenFacts.



(** ** The edge of the world *)

Module EdgeFacts.

Import PlayerSystem.

Lemma beyond_gtb (u : num) :
  (Num.abs u >? (WorldSystem.worldSize / Fin 2 - Fin 50))%js = true
  <-> beyondEdge u.
Proof.
  destruct u as [q|]; [|simpl; split; [discriminate|tauto]].
  change ((Num.abs (Fin q) >? (WorldSystem.worldSize / Fin 2 - Fin 50))%js)
    with (Num.Qltb (1000 / 2 - 50) (Qabs q)).
  rewrite Qltb_lt. simpl beyondEdge.
  assert (E : (1000 / 2 - 50 == 450)%Q) by reflexivity.
  rewrite E. tauto.
Qed.

Lemma checkWorldBoundaries_run (g : Game) (p : Player) :
  localOf g = Some p ->
  isTransitioning g = false ->
  checkWorldBoundaries g
  = if ((Num.abs (Vector3.x (position p))
         >? (WorldSystem.worldSize / Fin 2 - Fin 50))
        || (Num.abs (Vector3.z (position p))
            >? (WorldSystem.worldSize / Fin 2 - Fin 50)))%js
    then Ok tt (set_worldTransitionComplete
                  (set_transitionAlpha (set_isTransitioning g true) (Fin 0))
                  (Some RegenerateWorld))
    else Ok tt g.
Proof.
  intros Hp Htr.
  unfold checkWorldBoundaries, bind at 1, getLocalPlayer, gets at 1.
  fold (localOf g). rewrite Hp.
  unfold bind at 1, gets at 1. rewrite Htr.
  match goal with |- (if ?b then _ else _) _ = _ => destruct b end;
    [|reflexivity].
  unfold startWorldTransition, bind at 1, gets at 1. rewrite Htr.
  reflexivity.
Qed.

End EdgeFacts.

(** X12 (checkWorldBoundaries / startWorldTransition, where the world
    ends): with a local player and no transition under way the check never
    throws, and it starts a transition exactly when the player's x or z is
    more than 450 from the centre (at 450 itself, or with a coordinate
    that is not a number, it does not).  A transition that starts has
    alpha 0 and the regeneration pending; nothing else changes, and
    without a start nothing changes at all. *)
Theorem transition_starts_beyond_450 (g : Game) (p : Player) :
  localOf g = Some p ->
  isTransitioning g = false ->
  exists g',
    PlayerSystem.checkWorldBoundaries g = Ok tt g'
    /\ (isTransitioning g' = true
        <-> beyondEdge (Vector3.x (position p))
            \/ beyondEdge (Vector3.z (position p)))
    /\ (isTransitioning g' = true ->
        transitionAlpha g' = Fin 0
        /\ worldTransitionComplete g' = Some RegenerateWorld)
    /\ (isTransitioning g' = false -> g' = g)
    /\ besideWorld g'
       = (isTransitioning g', transitionAlpha g', worldTransitionComplete g',
          spellCooldown g, activeSpells g, localPlayer g)
    /\ players g' = players g
    /\ heightMap g' = heightMap g
    /\ manaNodes g' = manaNodes g
    /\ seed g' = seed g.
Proof.
  intros Hp Htr.
  rewrite (EdgeFacts.checkWorldBoundaries_run g p Hp Htr).
  pose proof (EdgeFacts.beyond_gtb (Vector3.x (position p))) as Hx.
  pose proof (EdgeFacts.beyond_gtb (Vector3.z (position p))) as Hz.
  destruct ((Num.abs (Vector3.x (position p))
             >? (WorldSystem.worldSize / Fin 2 - Fin 50))
            || (Num.abs (Vector3.z (position p))
                >? (WorldSystem.worldSize / Fin 2 - Fin 50)))%js eqn:E.
  - eexists. split; [reflexivity|]. simpl.
    split.
    + split; [intros _|reflexivity].
      apply orb_true_iff in E. tauto.
    + split; [intros _; split; reflexivity|].
      split; [discriminate|]. repeat split.
  - exists g. split; [reflexivity|].
    apply orb_false_iff in E. destruct E as [Ex Ez].
    split.
    + rewrite Htr. split; [discriminate|].
      intros [H|H]; [apply Hx in H|apply Hz in H]; congruence.
    + split; [rewrite Htr; discriminate|].
      split; [reflexivity|]. repeat split.
Qed.

Lemma transition_starts_beyond_450_witness :
  (exists g',
      PlayerSystem.checkWorldBoundaries Crossing.atEdge = Ok tt g'
      /\ isTransitioning g' = true)
  /\ (exists g',
         PlayerSystem.checkWorldBoundaries Example.world = Ok tt g'
         /\ g' = Example.world).
Proof.
  split.
  - assert (Hp : localOf Crossing.atEdge
                 = Some (set_position Example.carpet
                           (Vector3.mk (Fin 460) (Fin 50) (Fin 0))))
      by (vm_compute; reflexivity).
    destruct (transition_starts_beyond_450 Crossing.atEdge _ Hp)
      as [g' [Hrun [Hiff _]]]; [vm_compute; reflexivity|].
    exists g'. split; [exact Hrun|]. apply Hiff. left.
    vm_compute. reflexivity.
  - assert (Hp : localOf Example.world = Some Example.carpet)
      by (vm_compute; reflexivity).
    destruct (transition_starts_beyond_450 Example.world _ Hp)
      as [g' [Hrun [Hiff [_ [Hsame _]]]]]; [vm_compute; reflexivity|].
    exists g'. split; [exact Hrun|]. apply Hsame.
    destruct (isTransitioning g') eqn:E; [|reflexivity].
    exfalso. destruct (proj1 Hiff eq_refl) as [H|H];
      vm_compute in H; discriminate.
Defined.

(** ** A snapshot received again and again *)

Module ReplayFacts.

Import PlayerSystem.


End ReplayFacts.



(** ** Players that join *)

Module JoinFacts.

Lemma mapGet_app (m : list (string * Player)) (k key : string) (p : Player) :
  mapGet (m ++ [(k, p)]) key
  = match mapGet m key with
    | Some q => Some q
    | None => if String.eqb k key then Some p else None
    end.
Proof.
  induction m as [|[k0 p0] rest IH]; simpl; [reflexivity|].
  destruct (String.eqb k0 key); [reflexivity|exact IH].
Qed.

End JoinFacts.

(** X14 (createNetworkPlayer, joining): a join message never fails and
    never touches a player that is already there, nor the reference to the
    local player.  Afterwards a player with the message's id exists; if
    the id was new it is a remote player with health 100 of 100 and no
    mana, and a reported height of 0 has been replaced by 20.  A further
    join message with the same id, whatever position it carries, changes
    nothing. *)
Theorem createNetworkPlayer_joins_once (data again : Snapshot) (g : Game) :
  data_id again = data_id data ->
  exists g',
    PlayerSystem.createNetworkPlayer data g = Ok tt g'
    /\ (forall key q,
           mapGet (players g) key = Some q ->
           mapGet (players g') key = Some q)
    /\ (exists q,
           mapGet (players g') (data_id data) = Some q
           /\ (mapGet (players g) (data_id data) = None ->
               id q = data_id data
               /\ isLocal q = false
               /\ health q = Fin 100 /\ maxHealth q = Fin 100
               /\ mana q = Fin 0
               /\ (data_y data = Some (Fin 0) ->
                   Vector3.y (position q) = Fin 20)))
    /\ localPlayer g' = localPlayer g
    /\ (List.length (players g') <= S (List.length (players g)))%nat
    /\ PlayerSystem.createNetworkPlayer again g' = Ok tt g'.
Proof.
  intro Hid.
  unfold PlayerSystem.createNetworkPlayer at 1. rewrite RegenerationFacts.gets_bind.
  destruct (mapGet (players g) (data_id data)) as [q0|] eqn:E.
  - exists g. split; [reflexivity|]. split; [auto|].
    split; [exists q0; split; [exact E|discriminate]|].
    split; [reflexivity|]. split; [lia|].
    unfold PlayerSystem.createNetworkPlayer.
    rewrite RegenerationFacts.gets_bind, Hid, E. reflexivity.
  - eexists. split; [reflexivity|]. cbn [players set_players localPlayer].
    split.
    { intros key q Hq. rewrite JoinFacts.mapGet_app, Hq. reflexivity. }
    split.
    { eexists. split.
      - rewrite JoinFacts.mapGet_app, E, String.eqb_refl. reflexivity.
      - intros _. repeat split. intro Hy. simpl. rewrite Hy. reflexivity. }
    split; [reflexivity|].
    split; [rewrite length_app; simpl; lia|].
    unfold PlayerSystem.createNetworkPlayer.
    rewrite RegenerationFacts.gets_bind, Hid. cbn [players set_players].
    rewrite JoinFacts.mapGet_app, E, String.eqb_refl. reflexivity.
Qed.

Lemma createNetworkPlayer_joins_once_witness :
  exists g',
    PlayerSystem.createNetworkPlayer (Example.joined "player_ai_9" 1 0 2)
                                     Example.world = Ok tt g'
    /\ option_map position (mapGet (players g') "player_ai_9"%string)
       = Some (Vector3.mk (Fin 1) (Fin 20) (Fin 2))
    /\ PlayerSystem.createNetworkPlayer (Example.joined "player_ai_9" 7 7 7) g'
       = Ok tt g'.
Proof.
  destruct (createNetworkPlayer_joins_once
              (Example.joined "player_ai_9" 1 0 2)
              (Example.joined "player_ai_9" 7 7 7) Example.world eq_refl)
    as [g' [Hrun [_ [_ [_ [_ Hagain]]]]]].
  exists g'. split; [exact Hrun|]. split; [|exact Hagain].
  assert (Hg : Ok tt g'
               = PlayerSystem.createNetworkPlayer
                   (Example.joined "player_ai_9" 1 0 2) Example.world)
    by (symmetry; exact Hrun).
  vm_compute in Hg. injection Hg as ->. vm_compute. reflexivity.
Defined.

(** ** Climbing and sinking *)

Module ClimbFacts.

Import PlayerPhysics.

Lemma climbKept_refl key g : climbKept key g g.
Proof. intro H. exact H. Qed.

Lemma climbKept_trans key g1 g2 g3 :
  climbKept key g1 g2 -> climbKept key g2 g3 -> climbKept key g1 g3.
Proof. intros H1 H2 H. apply H2, H1, H. Qed.

Lemma respects_climb_modifyPlayer key (f : Player -> Player) :
  (forall p, climbBounded p -> climbBounded (f p)) ->
  respects (climbKept key) (modifyPlayer key f).
Proof.
  intros Hf g [p [Hget Hb]]. exists (f p). split; [|apply Hf; exact Hb].
  simpl. rewrite BoundFacts.mapGet_mapUpdate, Hget. reflexivity.
Qed.

Lemma clamp_bounded (v : Q) :
  exists v', MathUtils_clamp (Fin v) (- Fin 60)%js (Fin 60) = Fin v'
             /\ (-60 <= v' <= 60)%Q.
Proof.
  unfold MathUtils_clamp.
  change (- Fin 60)%js with (Fin (-60)).
  change (Num.min (Fin 60) (Fin v))
    with (Fin (if Qle_bool 60 v then 60 else v)).
  destruct (Qle_bool 60 v) eqn:E.
  - exists 60%Q. split; [reflexivity|]. split; [discriminate|apply Qle_refl].
  - assert (Hv : (v < 60)%Q).
    { apply Qnot_le_lt. intro L. apply Qle_bool_iff in L. congruence. }
    change (Num.max (Fin (-60)) (Fin v))
      with (Fin (if Qle_bool (-60) v then v else (-60)%Q)).
    destruct (Qle_bool (-60) v) eqn:E'.
    + apply Qle_bool_iff in E'. exists v. split; [reflexivity|]. split; lra.
    + exists (-60)%Q. split; [reflexivity|]. split; [apply Qle_refl|discriminate].
Qed.

Ltac climb_step key :=
  first
    [ apply respects_ret; apply climbKept_refl
    | apply respects_throw; apply climbKept_refl
    | apply respects_gets; apply climbKept_refl
    | apply respects_deref; apply climbKept_refl
    | apply respects_getTerrainHeight; apply climbKept_refl
    | apply respects_bind; [apply climbKept_trans| |intro]
    | match goal with
      | |- respects _ (if ?b then _ else _) => destruct b
      end ].

Lemma respects_climb_applyAltitudeChange key (force : Q) :
  respects (climbKept key) (applyAltitudeChange key (Fin force)).
Proof.
  intros g [p [Hget [v [Hv _]]]].
  destruct (clamp_bounded (v + force)) as [v' [Hclamp Hb]].
  exists (set_altitudeVelocity
            (set_altitudeVelocity p (Fin (v + force))) (Fin v')).
  split; [|exists v'; split; [reflexivity|exact Hb]].
  unfold applyAltitudeChange, bind, modifyPlayer, modify.
  cbn [finalState players set_players].
  rewrite !BoundFacts.mapGet_mapUpdate, Hget.
  cbn [option_map altitudeVelocity set_altitudeVelocity].
  rewrite Hv. change (Fin v + Fin force)%js with (Fin (v + force)).
  rewrite Hclamp. reflexivity.
Qed.

Ltac bounded_step :=
  let p := fresh "p" in
  let v := fresh "v" in
  let Hv := fresh "Hv" in
  let Hb := fresh "Hb" in
  intros p [v [Hv Hb]]; unfold climbBounded;
  cbn [altitudeVelocity set_altitudeVelocity set_position_y set_velocity_y
       set_position set_velocity];
  repeat match goal with
         | |- context [if ?b then _ else _] => destruct b eqn:?
         end;
  cbn [altitudeVelocity set_altitudeVelocity set_position_y set_velocity_y
       set_position set_velocity];
  rewrite ?Hv.

Lemma respects_climb_updateAltitude key (delta : Q) :
  respects (climbKept key) (updateAltitude key (Fin delta)).
Proof.
  unfold updateAltitude, getPlayer.
  repeat first
    [ apply respects_climb_modifyPlayer
    | climb_step key ].
  all: bounded_step.
  all: try (exists v; split; [reflexivity|exact Hb]).
  all: try (exists 0%Q; split; [reflexivity|split; discriminate]).
  - exists (v * 0.9)%Q. split; [reflexivity|]. split; lra.
  - exists (- v * 0.3)%Q. split; [reflexivity|]. split; lra.
Qed.

End ClimbFacts.

(** X15 (applyAltitudeChange / updateAltitude, vertical speed): a carpet
    whose vertical speed is within 60 in either direction keeps such a
    speed through any sequence of altitude pushes, whatever their force,
    and altitude updates, whatever the frame length and however an update
    ends (bounce off the floor, stop at the ceiling, or a failed terrain
    sample). *)
Theorem climb_speed_bounded (key : string) (steps : list AltitudeStep) :
  forall g : Game,
  climbOk key g -> climbOk key (altitudeSteps key steps g).
Proof.
  induction steps as [|s rest IH]; intros g H; [exact H|].
  unfold altitudeSteps. simpl fold_left. apply IH.
  destruct s as [force|delta]; simpl altitudeStep.
  - apply (ClimbFacts.respects_climb_applyAltitudeChange key force g H).
  - apply (ClimbFacts.respects_climb_updateAltitude key delta g H).
Qed.

Lemma climb_speed_bounded_witness :
  climbOk "player_1"
          (altitudeSteps "player_1"
             [Push 100; Settle 0.016; Push (-500); Settle 1; Settle 1]
             Example.world).
Proof.
  apply (climb_speed_bounded "player_1"
           [Push 100; Settle 0.016; Push (-500); Settle 1; Settle 1]
           Example.world).
  exists Example.carpet. split; [vm_compute; reflexivity|].
  exists 0%Q. split; [reflexivity|]. split; vm_compute; discriminate.
Defined.

(** ** Mana credited to the carpet *)

Module CreditFacts.

Import PlayerSystem.







End CreditFacts.



(** ** The selected slot *)

Module SlotFacts.

Import PlayerSpells.

Lemma slotOk_modifyPlayer (g : Game) (p : Player) (f : Player -> Player) :
  localOf g = Some p ->
  localPlayer g = Some (id p) ->
  id (f p) = id p ->
  validSlot (currentSpell (f p)) ->
  slotOk (set_players g (mapUpdate (players g) (id p) f)).
Proof.
  intros Hp Hkey Hid Hslot. exists (f p).
  assert (Hget : mapGet (players g) (id p) = Some p).
  { unfold localOf in Hp. rewrite Hkey in Hp. exact Hp. }
  split; [|split; [rewrite Hid; exact Hkey|exact Hslot]].
  unfold localOf. simpl. rewrite Hkey.
  rewrite BoundFacts.mapGet_mapUpdate, Hget. reflexivity.
Qed.

Lemma slotOk_elsewhere (g g' : Game) :
  players g' = players g -> localPlayer g' = localPlayer g ->
  slotOk g -> slotOk g'.
Proof.
  intros Hpl Hlp [p [Hp [Hkey Hslot]]]. exists p.
  unfold localOf in *. rewrite Hlp, Hpl. auto.
Qed.

Lemma selectSpell_whole (k : Z) (g : Game) :
  slotOk g -> slotOk (finalState (selectSpell (Fin (inject_Z k)) g)).
Proof.
  intros [p [Hp [Hkey Hslot]]].
  unfold selectSpell, bind at 1, getLocalPlayer, gets at 1.
  fold (localOf g). rewrite Hp.
  change ((Fin (inject_Z k) >=? Fin 0)
          && (Fin (inject_Z k) <? Num.ofNat (List.length spellTypes)))%js
    with (Qle_bool 0 (inject_Z k) && Num.Qltb (inject_Z k) (inject_Z 3)).
  destruct (Qle_bool 0 (inject_Z k) && Num.Qltb (inject_Z k) (inject_Z 3))
    eqn:E.
  - apply andb_true_iff in E. destruct E as [Elo Ehi].
    apply Qle_bool_iff in Elo. apply Qltb_lt in Ehi.
    change 0%Q with (inject_Z 0) in Elo.
    rewrite <- Zle_Qle in Elo. rewrite <- Zlt_Qlt in Ehi.
    unfold bind, modifyPlayer, modify, emit. simpl finalState.
    apply (slotOk_elsewhere
             (set_players g
                (mapUpdate (players g) (id p)
                   (fun q => set_currentSpell q (Fin (inject_Z k))))));
      [reflexivity|reflexivity|].
    apply (slotOk_modifyPlayer g p _ Hp Hkey); [reflexivity|].
    destruct (arrayGet_inside spellTypes k) as [t [Ht _]];
      [simpl; lia|].
    exists t. exact Ht.
  - exists p. auto.
Qed.

Section Casting.

Variable applyEuler : Vector3.t -> Euler.t -> Vector3.t.

Lemma castSpell_returns (g : Game) :
  slotOk g ->
  exists g', castSpell applyEuler g = Ok tt g' /\ slotOk g'.
Proof.
  intros [p [Hp [Hkey [t Ht]]]].
  assert (Hget : mapGet (players g) (id p) = Some p).
  { unfold localOf in Hp. rewrite Hkey in Hp. exact Hp. }
  assert (Hok : slotOk g).
  { exists p. split; [exact Hp|]. split; [exact Hkey|exists t; exact Ht]. }
  unfold castSpell, bind at 1, getLocalPlayer, gets at 1.
  fold (localOf g). rewrite Hp.
  unfold bind at 1, gets at 1.
  destruct (spellCooldown g >? Fin 0)%js.
  { exists g. split; [reflexivity|exact Hok]. }
  rewrite Ht. unfold bind at 1. simpl deref. unfold ret at 1.
  unfold bind at 1, modify at 1.
  destruct (String.eqb (st_name t) "Shield").
  - unfold createShieldEffect, bind at 1, getLocalPlayer, gets at 1.
    cbn [localPlayer players set_spellCooldown]. rewrite Hkey, Hget.
    eexists. split; [reflexivity|].
    apply (slotOk_modifyPlayer
             (set_trace (set_spellCooldown g (st_cooldown t))
                        (trace g ++ [ShieldAdded])) p _ Hp Hkey);
      [reflexivity|exists t; exact Ht].
  - eexists. split; [reflexivity|].
    apply (slotOk_elsewhere g); [reflexivity|reflexivity|exact Hok].
Qed.

Lemma act_slotOk (a : Action) (g : Game) :
  match a with
  | Select i => exists k : Z, i = Fin (inject_Z k)
  | _ => True
  end ->
  slotOk g -> slotOk (finalState (act applyEuler a g)).
Proof.
  intros Ha H. destruct a as [index|delta|]; simpl act.
  - destruct Ha as [k ->]. apply selectSpell_whole. exact H.
  - destruct H as [p [Hp [Hkey Hslot]]].
    destruct (ShieldFacts.updateSpells_shield (Fin delta) g p Hp Hkey)
      as [p' [Hp' [Hkey' [_ [Hcs _]]]]].
    exists p'. split; [exact Hp'|]. split; [exact Hkey'|].
    rewrite Hcs. exact Hslot.
  - destruct (castSpell_returns g H) as [g' [Hrun Hok]].
    rewrite Hrun. exact Hok.
Qed.

End Casting.

End SlotFacts.

(** X17 (selectSpell / castSpell, the slot is always a spell): from a
    state whose local player has one of the three slots selected, and
    through any casts, frames and selections of whole-numbered slots
    (refused when out of range), the selected slot still names a spell
    type and a cast never throws. *)
Theorem cast_always_finds_spell
        (applyEuler : Vector3.t -> Euler.t -> Vector3.t)
        (actions : list Action) :
  forall g : Game,
  slotOk g ->
  wholeSelections actions ->
  slotOk (perform applyEuler actions g)
  /\ completion (PlayerSpells.castSpell applyEuler
                   (perform applyEuler actions g)) = Returned tt.
Proof.
  assert (Hinv : forall g, slotOk g -> wholeSelections actions ->
                           slotOk (perform applyEuler actions g)).
  { induction actions as [|a rest IH]; intros g H Hw; [exact H|].
    inversion Hw as [|a' rest' Ha Hrest]; subst.
    simpl perform. apply IH; [|exact Hrest].
    apply SlotFacts.act_slotOk; assumption. }
  intros g H Hw. split; [apply Hinv; assumption|].
  destruct (SlotFacts.castSpell_returns applyEuler _ (Hinv g H Hw))
    as [g' [Hrun _]].
  rewrite Hrun. reflexivity.
Qed.

Lemma cast_always_finds_spell_witness :
  let actions := [Select (Fin 7); Cast; Tick 1; Select (Fin 2); Cast;
                  Select (Fin (-1)); Tick 2.5] in
  completion (PlayerSpells.castSpell Example.facingZ
                (perform Example.facingZ actions Example.world))
  = Returned tt.
Proof.
  intro actions.
  apply (cast_always_finds_spell Example.facingZ actions Example.world).
  - exists Example.carpet. split; [vm_compute; reflexivity|].
    split; [vm_compute; reflexivity|].
    eexists. vm_compute. reflexivity.
  - unfold actions.
    repeat constructor;
      first [ exists 7%Z; reflexivity
            | exists 2%Z; reflexivity
            | exists (-1)%Z; reflexivity ].
Defined.

(** ** Projectiles that are used up *)

Module SurvivorFacts.

Import PlayerSpells LoopFacts.

Lemma spent_same_heightMap (g g' : Game) (s : Spell) :
  heightMap g = heightMap g' -> spent g s = spent g' s.
Proof.
  intro H. unfold spent.
  rewrite (TerrainFacts.getTerrainHeight_reads_heightMap _ _ g g' H).
  reflexivity.
Qed.

Lemma Forall_incl {A : Type} (P : A -> Prop) (l l' : list A) :
  incl l' l -> Forall P l -> Forall P l'.
Proof.
  intros Hi Hl. apply Forall_forall. intros a Ha.
  rewrite Forall_forall in Hl. apply Hl, Hi, Ha.
Qed.

Lemma updateProjectile_sifts delta i g spell0 :
  gridOk (heightMap g) ->
  nth_error (activeSpells g) i = Some spell0 ->
  overMap (advance spell0 delta) ->
  Forall (fun s => spent g s = false) (skipn (S i) (activeSpells g)) ->
  Forall (fun s => spent g s = false)
         (skipn i (activeSpells (finalState (updateProjectile delta i g)))).
Proof.
  intros Hok Hnth [x [z [Hx [Hz [Bx Bz]]]]] Hrest.
  unfold updateProjectile.
  unfold bind at 1, gets at 1.
  unfold bind at 1. rewrite Hnth. simpl deref. unfold ret at 1.
  unfold bind at 1, modify at 1.
  set (spell := advance spell0 delta) in *.
  set (g1 := set_activeSpells g (arraySet (activeSpells g) i spell)).
  destruct (TerrainBounds.getTerrainHeight_inside x z g1 Hok Bx Bz)
    as [h Hh].
  assert (Hspent : spent g spell
                   = ((Vector3.y (spell_position spell) <? Fin h)
                      || (spell_life spell <=? Fin 0))%js).
  { unfold spent.
    rewrite (TerrainFacts.getTerrainHeight_reads_heightMap _ _ g g1 eq_refl).
    rewrite Hx, Hz, Hh. reflexivity. }
  unfold bind at 1. rewrite Hx, Hz, Hh.
  destruct ((Vector3.y (spell_position spell) <? Fin h)
            || (spell_life spell <=? Fin 0))%js.
  - destruct (Vector3.y (spell_position spell) <? Fin h)%js;
      unfold bind, emit, modify; simpl;
      rewrite ProjectileFacts.splice1_arraySet, skipn_splice1;
      exact Hrest.
  - unfold playersForEach, bind at 1, gets at 1.
    destruct (forEachPlayer_spliced spell i (players g1) g1)
      as [ps' [g2 [Hrun [[_ [S2 _]] _]]]].
    unfold bind. rewrite Hrun. simpl.
    unfold g1 in S2. simpl in S2.
    rewrite (skipn_arraySet _ _ _ _ Hnth) in S2.
    apply (Forall_incl _ _ _ S2).
    constructor; [exact Hspent|exact Hrest].
Qed.

Lemma updateProjectiles_sifts delta n : forall g,
  gridOk (heightMap g) ->
  (n <= List.length (activeSpells g))%nat ->
  Forall (fun s => overMap (advance s delta)) (firstn n (activeSpells g)) ->
  Forall (fun s => spent g s = false) (skipn n (activeSpells g)) ->
  exists g',
    updateProjectiles delta n g = Ok tt g'
    /\ heightMap g' = heightMap g
    /\ Forall (fun s => spent g s = false) (activeSpells g').
Proof.
  induction n as [|i IH]; intros g Hok Hn Hover Hrest.
  - exists g. split; [reflexivity|]. split; [reflexivity|exact Hrest].
  - destruct (nth_error (activeSpells g) i) as [spell0|] eqn:Hnth;
      [|apply nth_error_None in Hnth; lia].
    assert (Hsplit : firstn (S i) (activeSpells g)
                     = firstn i (activeSpells g) ++ [spell0]).
    { clear - Hnth. revert i Hnth.
      induction (activeSpells g) as [|a l IHl]; intros [|i] H; simpl in *;
        try discriminate.
      - injection H as ->. reflexivity.
      - rewrite (IHl i H). reflexivity. }
    rewrite Hsplit in Hover. apply Forall_app in Hover.
    destruct Hover as [Hbelow Hthis]. inversion Hthis as [|? ? Hs0 _]; subst.
    pose proof (updateProjectile_sifts delta i g spell0 Hok Hnth Hs0 Hrest)
      as Hsift.
    destruct (updateProjectile_completes delta i g spell0 Hok Hnth Hs0)
      as [g1 [Hrun [Hm [Hfirst [_ [_ Hge]]]]]].
    rewrite Hrun in Hsift. simpl finalState in Hsift.
    destruct (IH g1) as [g2 [Hrun2 [Hm2 Hall]]].
    + rewrite Hm. exact Hok.
    + exact Hge.
    + rewrite Hfirst. exact Hbelow.
    + eapply Forall_impl; [|exact Hsift]. intros s Hs.
      rewrite <- (spent_same_heightMap g g1 s (eq_sym Hm)). exact Hs.
    + exists g2. split.
      * simpl. unfold bind. rewrite Hrun. exact Hrun2.
      * split; [congruence|].
        eapply Forall_impl; [|exact Hall]. intros s Hs.
        rewrite (spent_same_heightMap g g1 s (eq_sym Hm)). exact Hs.
Qed.

Lemma updateSpells_sifts (delta : num) (g : Game) :
  gridOk (heightMap g) ->
  Forall (fun s => overMap (advance s delta)) (activeSpells g) ->
  exists g',
    updateSpells delta g = Ok tt g'
    /\ heightMap g' = heightMap g
    /\ Forall (fun s => spent g' s = false) (activeSpells g').
Proof.
  intros Hok Hover.
  unfold updateSpells.
  unfold bind at 1, gets at 1.
  set (g0 := if (spellCooldown g >? Fin 0)%js
             then set_spellCooldown g (spellCooldown g - delta)%js
             else g).
  assert (E0 : forall k : unit -> M unit,
    bind (if (spellCooldown g >? Fin 0)%js
          then modify (fun s => set_spellCooldown s (spellCooldown g - delta)%js)
          else ret tt) k g = k tt g0).
  { intro k. unfold g0. destruct (spellCooldown g >? Fin 0)%js; reflexivity. }
  rewrite E0.
  assert (Hsp0 : activeSpells g0 = activeSpells g)
    by (unfold g0; destruct (spellCooldown g >? Fin 0)%js; reflexivity).
  assert (Hm0 : heightMap g0 = heightMap g)
    by (unfold g0; destruct (spellCooldown g >? Fin 0)%js; reflexivity).
  destruct (updateShield_returns delta g0) as [g1 [Hrun1 [Hsp1 Hm1]]].
  unfold bind at 1. rewrite Hrun1.
  unfold bind at 1, gets at 1.
  destruct (updateProjectiles_sifts delta
              (List.length (activeSpells g1)) g1)
    as [g2 [Hrun2 [Hm2 Hall]]].
  - rewrite Hm1, Hm0. exact Hok.
  - lia.
  - rewrite firstn_all, Hsp1, Hsp0. exact Hover.
  - rewrite skipn_all. constructor.
  - exists g2. split; [exact Hrun2|].
    split; [rewrite Hm2, Hm1, Hm0; reflexivity|].
    eapply Forall_impl; [|exact Hall]. intros s Hs.
    rewrite (spent_same_heightMap g2 g1 s Hm2). exact Hs.
Qed.

End SurvivorFacts.

(** X18 (updateSpells, what is left in flight): over a height map of 101
    by 101 numbers, a frame whose projectiles all stay over the map
    returns, and no projectile it leaves in flight is below the terrain
    under it or out of life, also when a projectile that hit several
    players has taken another one out of the list with it. *)
Theorem spent_projectiles_removed (delta : num) (g : Game) :
  gridOk (heightMap g) ->
  Forall (fun s => overMap (PlayerSpells.advance s delta)) (activeSpells g) ->
  exists g',
    PlayerSpells.updateSpells delta g = Ok tt g'
    /\ Forall (fun s => spent g' s = false) (activeSpells g').
Proof.
  intros Hok Hover.
  destruct (SurvivorFacts.updateSpells_sifts delta g Hok Hover)
    as [g' [Hrun [_ Hall]]].
  exists g'. split; [exact Hrun|exact Hall].
Qed.

Lemma spent_projectiles_removed_witness :
  exists g',
    PlayerSpells.updateSpells (Fin 2.6) Example.twoInFlight = Ok tt g'
    /\ List.length (activeSpells Example.twoInFlight) = 2%nat
    /\ List.length (activeSpells g') = 1%nat
    /\ Forall (fun s => spent g' s = false) (activeSpells g').
Proof.
  assert (Hok : gridOk (heightMap Example.twoInFlight)).
  { change (heightMap Example.twoInFlight) with (heightMap Example.world).
    exact ExampleFacts.world_gridOk. }
  destruct (spent_projectiles_removed (Fin 2.6) Example.twoInFlight Hok)
    as [g' [Hrun Hall]].
  - repeat constructor; apply overMapb_overMap; vm_compute; reflexivity.
  - exists g'. split; [exact Hrun|]. split; [reflexivity|].
    split; [|exact Hall].
    assert (Hg : Ok tt g'
                 = PlayerSpells.updateSpells (Fin 2.6) Example.twoInFlight)
      by (symmetry; exact Hrun).
    vm_compute in Hg. injection Hg as ->. reflexivity.
Defined.

(** ** The life of a projectile *)

Module LifeFacts.

Import PlayerSpells.



Section Frames.

Variable applyEuler : Vector3.t -> Euler.t -> Vector3.t.


End Frames.

End LifeFacts.



(** ** The local player is created *)

(** X20 (createLocalPlayer, what the other methods rely on): creating the
    local player never fails and leaves every other player as it was;
    afterwards the local player is stored under its own id, at rest at
    (0, 50, 0) with health 100 of 100, no mana and no shield, its first
    slot selected (so a cast finds its spell type) and no vertical speed
    (so the speed bound holds from the start). *)
Theorem createLocalPlayer_establishes (key : string) (g : Game) :
  exists g' p,
    PlayerSystem.createLocalPlayer key g = Ok tt g'
    /\ localOf g' = Some p
    /\ localPlayer g' = Some (id p)
    /\ id p = key
    /\ isLocal p = true
    /\ position p = Vector3.mk (Fin 0) (Fin 50) (Fin 0)
    /\ velocity p = Vector3.mk (Fin 0) (Fin 0) (Fin 0)
    /\ health p = Fin 100 /\ maxHealth p = Fin 100
    /\ mana p = Fin 0
    /\ shield p = None
    /\ slotOk g'
    /\ climbOk key g'
    /\ (forall k, k <> key -> mapGet (players g') k = mapGet (players g) k).
Proof.
  set (p := mkPlayer key true
                     (Vector3.mk (Fin 0) (Fin 50) (Fin 0))
                     (Euler.mk (Fin 0) (Fin 0) (Fin 0))
                     (Vector3.mk (Fin 0) (Fin 0) (Fin 0))
                     (Fin 0) (Fin 100) (Fin 100) (Fin 0) (Fin 0) None).
  eexists. exists p. split; [reflexivity|].
  cbn [localPlayer players].
  assert (Hget : mapGet
                   (match mapGet (players g) key with
                    | Some _ => mapUpdate (players g) key (fun _ => p)
                    | None => players g ++ [(key, p)]
                    end) key = Some p).
  { destruct (mapGet (players g) key) as [q|] eqn:E.
    - rewrite BoundFacts.mapGet_mapUpdate, E. reflexivity.
    - rewrite JoinFacts.mapGet_app, E, String.eqb_refl. reflexivity. }
  assert (Hlocal : localOf
                     (mkGame (heightMap g) (seed g) (manaNodes g)
                        (match mapGet (players g) key with
                         | Some _ => mapUpdate (players g) key (fun _ => p)
                         | None => players g ++ [(key, p)]
                         end)
                        (Some key) (isTransitioning g) (transitionAlpha g)
                        (worldTransitionComplete g) (spellCooldown g)
                        (activeSpells g) (randomCalls g) (trace g))
                   = Some p).
  { unfold localOf. cbn [localPlayer players]. exact Hget. }
  split; [exact Hlocal|].
  do 9 (split; [reflexivity|]).
  split.
  { exists p. split; [exact Hlocal|]. split; [reflexivity|].
    eexists. vm_compute. reflexivity. }
  split.
  { exists p. split; [exact Hget|].
    exists 0%Q. split; [reflexivity|]. split; discriminate. }
  intros k Hne.
  destruct (mapGet (players g) key) as [q|] eqn:E.
  - apply RegenerationFacts.mapGet_mapUpdate_other. exact Hne.
  - rewrite JoinFacts.mapGet_app.
    destruct (mapGet (players g) k); [reflexivity|].
    destruct (String.eqb key k) eqn:Ek; [|reflexivity].
    apply String.eqb_eq in Ek. congruence.
Qed.
